(** * express-aggressive-cache: the caching middleware and its cacheability
      predicate, embedded from [src/middleware.ts] and [src/should-cache.ts].

    Definitions come first:
    - [Js]: the JavaScript values the code inspects (truthiness, [===]);
    - [ShouldCache]: the predicate of [should-cache.ts];
    - [Model]: the request path of [middleware.ts] (bypass, lookup, hit,
      miss), the patched [write]/[end], [purge], and one capture session
      driven by handler calls and store acknowledgements, with the
      ordering queue between them;
    - [Sample]: concrete collaborators to run the model on.
    The theorems follow: [ShouldCacheFacts], [RequestPath],
    [CaptureSession], [Capture] and, at the concrete instance,
    [Scenarios].

    The middleware is [async]; each call of it is modelled as one atomic
    computation.  Callbacks and store operations are assumed to settle
    without an error, and expiry of store entries is outside the model. *)

From Stdlib Require Import Floats.SpecFloat.
From stdpp Require Import base option list strings pretty gmap fin_maps.

Open Scope string_scope.
Open Scope list_scope.

(* ===================================================================== *)
(** ** JavaScript values *)
(* ===================================================================== *)

Module Js.

(** A value of TypeScript type [any].  Numbers are IEEE-754 doubles, kept
    as [spec_float] so that [+0], [-0] and [NaN] are distinct values.
    [JObject] stands for every object that is not otherwise listed
    (arrays, plain objects, functions); the code never looks inside one. *)
Inductive value : Type :=
| JUndefined
| JNull
| JBool (b : bool)
| JNumber (x : spec_float)
| JString (s : string)
| JBuffer (bytes : list Byte.byte)
| JObject.

#[export] Instance value_inhabited : Inhabited value := populate JUndefined.

(** ToBoolean: [undefined], [null], [false], [+0], [-0], [NaN] and the
    empty string are falsy, everything else is truthy. *)
Definition truthy (v : value) : bool :=
  match v with
  | JUndefined | JNull => false
  | JBool b => b
  | JNumber (S754_zero _) | JNumber S754_nan => false
  | JNumber _ => true
  | JString s => negb (String.eqb s "")
  | JBuffer _ | JObject => true
  end.

(** [v === 0]: strict equality with the number literal [0].  No coercion
    takes place; [+0] and [-0] are both equal to [0], [NaN] is not. *)
Definition strict_eq_zero (v : value) : bool :=
  match v with
  | JNumber (S754_zero _) => true
  | _ => false
  end.

(** [v !== undefined]. *)
Definition is_defined (v : value) : bool :=
  match v with
  | JUndefined => false
  | _ => true
  end.

(** [obj[key]] on a plain object used as a record: a missing property
    reads as [undefined]. *)
Definition prop (obj : gmap string value) (key : string) : value :=
  default JUndefined (obj !! key).

(** [args[0]] on a rest-parameter array. *)
Definition arg0 (args : list value) : value :=
  default JUndefined (args !! 0).

(** The doubles [0], [-1] and [3600] used in the examples. *)
Definition zero : spec_float := S754_zero false.
Definition neg_zero : spec_float := S754_zero true.
Definition minus_one : spec_float := S754_finite true 1 0.
Definition hour : spec_float := S754_finite false 3600 0.

End Js.

Import Js.

(* ===================================================================== *)
(** ** should-cache.ts *)
(* ===================================================================== *)

Module ShouldCache.

(** [shouldCache(cacheControl: Record<string, any> | null)].  The
    argument is [None] for [null]; an object is always truthy, so
    [!cacheControl] holds exactly for [null]. *)
Definition shouldCache (cacheControl : option (gmap string value)) : bool :=
  match cacheControl with
  | None => true
  | Some cc =>
      let noCache := prop cc "no-cache" in
      let noStore := prop cc "no-store" in
      let isPrivate := prop cc "private" in
      let maxAge := prop cc "max-age" in
      if truthy noCache || truthy noStore || truthy isPrivate
         || strict_eq_zero maxAge
      then false
      else true
  end.

(** The directives that block caching, as a predicate on the map. *)
Definition blocked (cc : gmap string value) : Prop :=
  truthy (prop cc "no-cache") = true
  ∨ truthy (prop cc "no-store") = true
  ∨ truthy (prop cc "private") = true
  ∨ ∃ sign, cc !! "max-age" = Some (JNumber (S754_zero sign)).

End ShouldCache.

Import ShouldCache.

(* ===================================================================== *)
(** ** middleware.ts: data *)
(* ===================================================================== *)

(** The fields of [CachedResponse] (declared in ./types) that the
    middleware reads. *)
Record CachedResponse : Type := {
  isSealed : bool;
  chunks : list string
}.

(** The part of an Express [Request] the middleware itself inspects; the
    rest of the request is only handed to the cache-key and cache-tag
    functions. *)
Record Request : Type := {
  method : string;
  originalUrl : string
}.

(** The two closures pushed on the chunk queue, with the variables they
    capture: [() => cacheChunk({requestId, chunk, cacheKey, ...})] and
    [() => sealChunks({requestId, cacheKey, ...})]. *)
Inductive Task : Type :=
| CacheChunk (requestId : string) (chunk : value) (cacheKey : string)
| SealChunks (requestId : string) (cacheKey : string).

(** A store operation a running task is waiting on. *)
Inductive StoreOp : Type :=
| StoreChunk (requestId : string) (chunk : value)
| PersistResponse (cacheKey : string) (sealed : bool).

(** Modelled from the spec: the [Queue] class of ./utils, which is not part
    of the sources at hand.  Section 4.1: a FIFO list of tasks bound to one
    capture session, and a drain loop of which at most one is active.
    [active] is the task being awaited by the drain loop, with the store
    operation it is suspended on and the ones it still has to issue;
    [active = None] means no drain loop is running. *)
Record Queue : Type := {
  pending : list Task;
  active : option (Task * StoreOp * list StoreOp)
}.

(** What the middleware and the handler do that is visible from outside. *)
Inductive Event : Type :=
| OnCacheHit
| OnCacheMiss
| Next
| ResponseBucketGet (cacheKey : string)
| ChunkBucketHas (keys : list string)
| CacheKeyBucketSet (cacheTag cacheKey : string)
| ReturnCachedResponse (cachedResponse : CachedResponse)
| TaskDone (task : Task).

(** The three buckets created by [store<T>()], and [res.aggressiveCache]
    (unset until the middleware assigns it). *)
Record Heap : Type := {
  responseBucket : gmap string CachedResponse;
  chunkBucket : gmap string value;
  cacheKeyBucket : gmap string string;
  aggressiveCache : option (list string)
}.

(** A promise that has settled, or a call that returned or threw. *)
Inductive Settled (A : Type) : Type :=
| Fulfilled (a : A)
| Rejected (message : string).
Arguments Fulfilled {A} a.
Arguments Rejected {A} message.

Section Model.

(** The connection to the real client and what [write]/[end] return. *)
Context {Client Ret : Type}.

(** Everything that changes while a request is processed. *)
Record World : Type := {
  heap : Heap;
  chunkQueue : Queue;
  client : Client;
  console : list string;
  trace : list Event
}.

(** Computations of the middleware: state passing with exceptions. *)
Definition M (A : Type) : Type := World → Settled A * World.

Definition throw {A} (message : string) : M A := λ w, (Rejected message, w).

#[export] Instance M_ret : MRet M := λ A a w, (Fulfilled a, w).

#[export] Instance M_bind : MBind M := λ A B k m w,
  match m w with
  | (Fulfilled a, w') => k a w'
  | (Rejected e, w') => (Rejected e, w')
  end.

Definition modify (f : World → World) : M unit := λ w, (Fulfilled (), f w).

Definition gets {A} (f : World → A) : M A := λ w, (Fulfilled (f w), w).

Definition set_heap (f : Heap → Heap) (w : World) : World :=
  {| heap := f (heap w); chunkQueue := chunkQueue w; client := client w;
     console := console w; trace := trace w |}.

Definition set_chunkQueue (f : Queue → Queue) (w : World) : World :=
  {| heap := heap w; chunkQueue := f (chunkQueue w); client := client w;
     console := console w; trace := trace w |}.

Definition emit (e : Event) : M unit :=
  modify (λ w, {| heap := heap w; chunkQueue := chunkQueue w;
                  client := client w; console := console w;
                  trace := trace w ++ [e] |}).

(** The methods of the response object that the middleware replaces or
    extends: [res.write], [res.end] and the listeners of ["finish"]. *)
Record Response : Type := {
  write : list value → M Ret;
  end_ : list value → M Ret;
  finishListeners : list (M unit)
}.

(** A method of the underlying response: it acts on the client
    connection and on nothing else. *)
Definition native (f : list value → Client → Settled Ret * Client)
  : list value → M Ret :=
  λ args w,
    let '(r, c) := f args (client w) in
    (r, {| heap := heap w; chunkQueue := chunkQueue w; client := c;
           console := console w; trace := trace w |}).

Definition nativeResponse
    (nativeWrite nativeEnd : list value → Client → Settled Ret * Client)
  : Response :=
  {| write := native nativeWrite; end_ := native nativeEnd;
     finishListeners := [] |}.

(** The caller's options, after merging with [defaultOptions].  The
    callbacks [onCacheHit] and [onCacheMiss] are recorded as events. *)
Record Options : Type := {
  debug : bool;
  getCacheKey : Request → Response → string → string;
  getCacheTag : option (Request → Response → option string)
}.

Variable options : Options.

(** [defaultGetCacheKey] of ./cache-key: the path normalisation. *)
Variable defaultGetCacheKey : Request → string.

(** Modelled from the spec: the identity of a chunk, computed in ./chunk,
    which is not part of the sources at hand.  Section 3: derived from the
    capture session (the request id) and the sequence position. *)
Variable chunkId : string → nat → string.

(* ------------------------------------------------------------------- *)
(** *** The store contract *)

(** Modelled from the spec: the store of ./stores, which is not part of
    the sources at hand.  Section 6: [get(key)] yields the value or
    absent; [has] over a sequence of keys holds when it holds for every
    element; [set] records the value.  Expiry is not modelled. *)
Definition bucket_has {V} (bucket : gmap string V) (keys : list string)
  : bool :=
  forallb (λ k, bool_decide (is_Some (bucket !! k))) keys.

(** Modelled from the spec: [responseBucket.get] of the absent store. *)
Definition responseBucket_get (cacheKey : string)
  : M (option CachedResponse) :=
  emit (ResponseBucketGet cacheKey);;
  gets (λ w, responseBucket (heap w) !! cacheKey).

(** Modelled from the spec: [chunkBucket.has] of the absent store. *)
Definition chunkBucket_has (keys : list string) : M bool :=
  emit (ChunkBucketHas keys);;
  gets (λ w, bucket_has (chunkBucket (heap w)) keys).

(** Modelled from the spec: [cacheKeyBucket.set] of the absent store. *)
Definition cacheKeyBucket_set (cacheTag cacheKey : string) : M unit :=
  emit (CacheKeyBucketSet cacheTag cacheKey);;
  modify (set_heap (λ h,
    {| responseBucket := responseBucket h; chunkBucket := chunkBucket h;
       cacheKeyBucket := <[cacheTag := cacheKey]> (cacheKeyBucket h);
       aggressiveCache := aggressiveCache h |})).

(* ------------------------------------------------------------------- *)
(** *** The ordering queue *)

(** Modelled from the spec: what a task does, from ./chunk, which is not
    part of the sources at hand.  Section 4.2: a chunk task (a) stores the
    chunk under its identity and (b) appends the identity to the
    in-progress chunk list and persists the updated record.  Section 4.3:
    the sealing task marks the record sealed and persists it.  The
    cacheability gate of section 4.4 and time-to-live values are left
    out: the session modelled is that of a cacheable response. *)
Definition task_ops (t : Task) : StoreOp * list StoreOp :=
  match t with
  | CacheChunk requestId chunk cacheKey =>
      (StoreChunk requestId chunk, [PersistResponse cacheKey false])
  | SealChunks requestId cacheKey =>
      (PersistResponse cacheKey true, [])
  end.

(** Modelled from the spec: the effect of a store operation once the
    store has acknowledged it. *)
Definition do_op (op : StoreOp) (h : Heap) : Heap :=
  let ids := default [] (aggressiveCache h) in
  match op with
  | StoreChunk requestId chunk =>
      let id := chunkId requestId (length ids) in
      {| responseBucket := responseBucket h;
         chunkBucket := <[id := chunk]> (chunkBucket h);
         cacheKeyBucket := cacheKeyBucket h;
         aggressiveCache := Some (ids ++ [id]) |}
  | PersistResponse cacheKey sealed =>
      {| responseBucket :=
           <[cacheKey := {| isSealed := sealed; chunks := ids |}]>
             (responseBucket h);
         chunkBucket := chunkBucket h;
         cacheKeyBucket := cacheKeyBucket h;
         aggressiveCache := aggressiveCache h |}
  end.

(** Modelled from the spec: [new Queue()], with nothing to do. *)
Definition newQueue : Queue := {| pending := []; active := None |}.

(** Modelled from the spec: [Queue.push], appending to the FIFO list. *)
Definition Queue_push (t : Task) : M unit :=
  modify (set_chunkQueue (λ q,
    {| pending := pending q ++ [t]; active := active q |})).

(** Modelled from the spec: the drain loop taking its next task, or
    stopping when the list is empty. *)
Definition drain (q : Queue) : Queue :=
  match pending q with
  | [] => {| pending := []; active := None |}
  | t :: rest =>
      let '(op, ops) := task_ops t in
      {| pending := rest; active := Some (t, op, ops) |}
  end.

(** Modelled from the spec: [Queue.run], starting a drain loop unless one
    is active. *)
Definition Queue_run : M unit :=
  modify (set_chunkQueue (λ q,
    match active q with
    | Some _ => q
    | None => drain q
    end)).

(** Modelled from the spec: the store acknowledges the operation the
    running task is suspended on.  The operation takes effect; the task
    issues its next operation or, when it has none, completes and the
    drain loop moves on.  Nothing happens when no task is running. *)
Definition ack (w : World) : World :=
  match active (chunkQueue w) with
  | None => w
  | Some (t, op, ops) =>
      let h := do_op op (heap w) in
      match ops with
      | op' :: ops' =>
          {| heap := h;
             chunkQueue := {| pending := pending (chunkQueue w);
                              active := Some (t, op', ops') |};
             client := client w; console := console w; trace := trace w |}
      | [] =>
          {| heap := h; chunkQueue := drain (chunkQueue w);
             client := client w; console := console w;
             trace := trace w ++ [TaskDone t] |}
      end
  end.

(* ------------------------------------------------------------------- *)
(** *** expressAggressiveCache *)

(** [log(...msg)]: printed only when [debug] is set. *)
Definition console_log (msg : string) (w : World) : World :=
  if debug options
  then {| heap := heap w; chunkQueue := chunkQueue w; client := client w;
          console := console w ++ [msg]; trace := trace w |}
  else w.

Definition log (msg : string) : M unit := modify (console_log msg).

(** [purge]: an [async] function whose body throws, so the promise it
    returns is rejected with that error. *)
Definition purge (cacheTag : string) : M unit :=
  throw ("purge for cache tag " +:+ cacheTag
         +:+ " not implemented - API could still change - do not use").

Definition updateCacheKeyBucketOptional
    (req : Request) (res : Response) (cacheKey : string) : M unit :=
  match getCacheTag options with
  | Some getCacheTag =>
      match getCacheTag req res with
      | Some cacheTag => cacheKeyBucket_set cacheTag cacheKey
      | None => mret ()
      end
  | None => mret ()
  end.

(** [returnCachedResponse] of ./response replays the record to the
    client; here the call is recorded with the record it is given. *)
Definition returnCachedResponse (cachedResponse : CachedResponse) : M unit :=
  emit (ReturnCachedResponse cachedResponse).

(** [cachedResponse?.isSealed] is [undefined] for a missing record. *)
Definition checkAndHandleCacheHit
    (cachedResponse : option CachedResponse)
    (req : Request) (res : Response) (cacheKey : string) : M bool :=
  match cachedResponse with
  | Some cr =>
      if isSealed cr then
        present ← chunkBucket_has (chunks cr);
        if (present : bool) then
          log ("HIT: " +:+ cacheKey);;
          emit OnCacheHit;;
          returnCachedResponse cr;;
          mret true
        else
          log "chunk missing";;
          mret false
      else mret false
  | None => mret false
  end.

(** The response object after [handleCacheMiss] has replaced [res.write]
    and [res.end] and registered the ["finish"] listener.  Each
    replacement calls [onWrite(args[0])] and then
    [original.call(this, ...args)], whose result it returns. *)
Definition patched (res : Response)
    (onFinish : M unit) (onWrite : value → M unit) : Response :=
  let originalWrite := write res in
  let originalEnd := end_ res in
  {| write := λ args, onWrite (arg0 args);; originalWrite args;
     end_ := λ args, onWrite (arg0 args);; originalEnd args;
     finishListeners := finishListeners res ++ [onFinish] |}.

Definition handleCacheMiss
    (req : Request) (res : Response)
    (onFinish : M unit) (onWrite : value → M unit)
    (cacheKey : string) : M Response :=
  log ("MISS - key not found: " +:+ cacheKey);;
  emit OnCacheMiss;;
  updateCacheKeyBucketOptional req res cacheKey;;
  mret (patched res onFinish onWrite).

Definition handleNonGetRequestsAsCacheMiss
    (req : Request) (res : Response) : M bool :=
  if bool_decide (method req ≠ "GET") then
    log "MISS - not a GET request";;
    emit OnCacheMiss;;
    mret true
  else mret false.

(** [onWrite] of [getChunkFunctions]: [chunkQueue.push(...).run()] for a
    chunk that is not [undefined]. *)
Definition onWrite (requestId cacheKey : string) (chunk : value) : M unit :=
  if is_defined chunk then
    Queue_push (CacheChunk requestId chunk cacheKey);;
    Queue_run
  else mret ().

Definition onFinish (requestId cacheKey : string) : M unit :=
  Queue_push (SealChunks requestId cacheKey);;
  Queue_run.

(** [getChunkFunctions]; [requestId] is the string [nanoid()] returns. *)
Definition getChunkFunctions (requestId cacheKey : string)
  : M ((value → M unit) * M unit) :=
  modify (set_chunkQueue (λ _, newQueue));;
  mret (onWrite requestId cacheKey, onFinish requestId cacheKey).

(** [next()]: control passes to the handler. *)
Definition next : M unit := emit Next.

(** [res.aggressiveCache = { chunks: [] }]. *)
Definition reset_aggressiveCache : M unit :=
  modify (set_heap (λ h,
    {| responseBucket := responseBucket h; chunkBucket := chunkBucket h;
       cacheKeyBucket := cacheKeyBucket h; aggressiveCache := Some [] |})).

(** [middleware(req, res, next)].  The result is the response object as
    the middleware leaves it. *)
Definition middleware (requestId : string) (req : Request) (res : Response)
  : M Response :=
  bypass ← handleNonGetRequestsAsCacheMiss req res;
  if (bypass : bool) then
    next;; mret res
  else
    let normalizedPath := defaultGetCacheKey req in
    let cacheKey := getCacheKey options req res normalizedPath in
    reset_aggressiveCache;;
    '(onWrite, onFinish) ← getChunkFunctions requestId cacheKey;
    cachedResponse ← responseBucket_get cacheKey;
    hit ← checkAndHandleCacheHit cachedResponse req res cacheKey;
    if (hit : bool) then mret res
    else
      res' ← handleCacheMiss req res onFinish onWrite cacheKey;
      next;;
      mret res'.

(** The cache key the middleware computes for a request. *)
Definition cacheKeyOf (req : Request) (res : Response) : string :=
  getCacheKey options req res (defaultGetCacheKey req).

(* ------------------------------------------------------------------- *)
(** *** A capture session *)

(** What happens after the middleware has returned on a miss: the handler
    calls [res.write] and [res.end], the response emits ["finish"], and
    the store acknowledges operations, in any interleaving. *)
Inductive Step : Type :=
| HandlerWrite (args : list value)
| HandlerEnd (args : list value)
| Finish
| Ack.

Definition exec {A} (m : M A) (w : World) : World := snd (m w).

Definition step (res : Response) (w : World) (s : Step) : World :=
  match s with
  | HandlerWrite args => exec (write res args) w
  | HandlerEnd args => exec (end_ res args) w
  | Finish => foldl (λ w listener, exec listener w) w (finishListeners res)
  | Ack => ack w
  end.

Definition run (res : Response) (w : World) (schedule : list Step) : World :=
  foldl (step res) w schedule.

(** The first argument of each handler call that carries a chunk, in
    call order. *)
Definition written (schedule : list Step) : list value :=
  flat_map (λ s, match s with
                 | HandlerWrite args | HandlerEnd args =>
                     if is_defined (arg0 args) then [arg0 args] else []
                 | Finish | Ack => []
                 end) schedule.

(** The handler's side of a schedule. *)
Definition is_ack (s : Step) : bool :=
  match s with Ack => true | _ => false end.

Definition handler_calls (schedule : list Step) : list Step :=
  filter (λ s, is_ack s = false) schedule.

Definition is_finish (s : Step) : bool :=
  match s with Finish => true | _ => false end.

(** The tasks a trace reports as completed, in completion order. *)
Definition tasks_done (tr : list Event) : list Task :=
  omap (λ e, match e with TaskDone t => Some t | _ => None end) tr.

Definition idle (q : Queue) : Prop := pending q = [] ∧ active q = None.

(** Replaying a chunk list: every identity looked up in the chunk store. *)
Definition resolve (bucket : gmap string value) (ids : list string)
  : option (list value) :=
  mapM (λ id, bucket !! id) ids.

(** The condition under which [checkAndHandleCacheHit] answers [true]. *)
Definition replayable (h : Heap) (cacheKey : string) : Prop :=
  ∃ cr, responseBucket h !! cacheKey = Some cr
        ∧ isSealed cr = true
        ∧ ∀ id, id ∈ chunks cr → is_Some (chunkBucket h !! id).

(** A request is served from the cache when [returnCachedResponse] is
    called; the handler is invoked when [next] is. *)
Definition served_from_cache (events : list Event) : Prop :=
  ∃ cr, ReturnCachedResponse cr ∈ events.

Definition handler_invoked (events : list Event) : Prop := Next ∈ events.

(** The tasks a queue holds, the running one first. *)
Definition queued (q : Queue) : list Task :=
  match active q with
  | Some (t, _, _) => t :: pending q
  | None => pending q
  end.

(** The store operations of a task, and of what a queue still has to
    do, in the order they will be issued. *)
Definition all_ops (t : Task) : list StoreOp :=
  let '(op, ops) := task_ops t in op :: ops.

Definition remaining_ops (q : Queue) : list StoreOp :=
  match active q with
  | Some (_, op, ops) => op :: ops
  | None => []
  end ++ flat_map all_ops (pending q).

Definition apply_ops (ops : list StoreOp) (h : Heap) : Heap :=
  foldl (λ h op, do_op op h) h ops.

(** The tasks the handler calls of a schedule push, in push order. *)
Definition pushed (requestId cacheKey : string) (schedule : list Step)
  : list Task :=
  flat_map (λ s, match s with
                 | HandlerWrite args | HandlerEnd args =>
                     if is_defined (arg0 args)
                     then [CacheChunk requestId (arg0 args) cacheKey]
                     else []
                 | Finish => [SealChunks requestId cacheKey]
                 | Ack => []
                 end) schedule.

(** [chunkQueue.push(task).run()] as one update of the queue. *)
Definition push_run (t : Task) (q : Queue) : Queue :=
  let q' := {| pending := pending q ++ [t]; active := active q |} in
  match active q' with
  | Some _ => q'
  | None => drain q'
  end.

Definition enqueue (ts : list Task) (q : Queue) : Queue :=
  foldl (λ q t, push_run t q) q ts.

(** The response object of a miss when [res] has the native methods. *)
Definition capturing
    (nativeWrite nativeEnd : list value → Client → Settled Ret * Client)
    (requestId cacheKey : string) : Response :=
  patched (nativeResponse nativeWrite nativeEnd)
    (onFinish requestId cacheKey) (onWrite requestId cacheKey).

(** The events of [updateCacheKeyBucketOptional]. *)
Definition tag_events (req : Request) (res : Response) (cacheKey : string)
  : list Event :=
  match getCacheTag options with
  | Some getCacheTag =>
      match getCacheTag req res with
      | Some cacheTag => [CacheKeyBucketSet cacheTag cacheKey]
      | None => []
      end
  | None => []
  end.

Definition is_seal_task (t : Task) : bool :=
  match t with
  | SealChunks _ _ => true
  | CacheChunk _ _ _ => false
  end.

(** What relates a world during a capture session to the world [w1] the
    session started in and to the tasks pushed so far: the completed
    tasks are reported in the trace in push order, the others are still
    queued, and the heap is [w1]'s after the store operations of the
    completed tasks and the acknowledged ones of the running task. *)
Definition session_inv (heap1 : Heap) (trace1 : list Event)
    (tasks : list Task) (w : World) : Prop :=
  ∃ (done : list Task) (acked : list StoreOp),
    trace w = trace1 ++ map TaskDone done
    ∧ done ++ queued (chunkQueue w) = tasks
    ∧ heap w = apply_ops (flat_map all_ops done ++ acked) heap1
    ∧ match active (chunkQueue w) with
      | None => acked = [] ∧ pending (chunkQueue w) = []
      | Some (t, op, ops) => all_ops t = acked ++ op :: ops
      end.

Definition is_seal (op : StoreOp) : bool :=
  match op with
  | PersistResponse _ sealed => sealed
  | StoreChunk _ _ => false
  end.

End Model.

Arguments Build_World {Client} heap chunkQueue client console trace.

(* ===================================================================== *)
(** ** A concrete instance *)
(* ===================================================================== *)

(** Collaborators for running the model on examples: the client connection
    is the list of calls that reached it, cache keys are request URLs, and a
    chunk identity is the request id followed by the sequence position. *)
Module Sample.

Definition Client : Type := list (list value).

Definition nativeWrite (args : list value) (c : Client)
  : Settled bool * Client :=
  (Fulfilled true, c ++ [args]).

Definition nativeEnd (args : list value) (c : Client)
  : Settled bool * Client :=
  (Fulfilled false, c ++ [args]).

Definition res : @Response Client bool := nativeResponse nativeWrite nativeEnd.

Definition options : @Options Client bool :=
  {| debug := true;
     getCacheKey := λ _ _ normalizedPath, normalizedPath;
     getCacheTag := None |}.

Definition defaultGetCacheKey (req : Request) : string := originalUrl req.

Definition chunkId (requestId : string) (n : nat) : string :=
  requestId +:+ "-" +:+ pretty n.

Definition emptyHeap : Heap :=
  {| responseBucket := ∅; chunkBucket := ∅; cacheKeyBucket := ∅;
     aggressiveCache := None |}.

Definition emptyWorld : @World Client :=
  Build_World emptyHeap newQueue [] [] [].

Definition get : Request := {| method := "GET"; originalUrl := "/hello" |}.

Definition post : Request := {| method := "POST"; originalUrl := "/hello" |}.

(** A sealed record whose second chunk is gone from the chunk store. *)
Definition staleHeap : Heap :=
  {| responseBucket :=
       {[ "/hello" := {| isSealed := true; chunks := ["a-0"; "a-1"] |} ]};
     chunkBucket := {[ "a-0" := JString "He" ]};
     cacheKeyBucket := ∅;
     aggressiveCache := None |}.

(** The same record with both chunks in place. *)
Definition warmHeap : Heap :=
  {| responseBucket :=
       {[ "/hello" := {| isSealed := true; chunks := ["a-0"; "a-1"] |} ]};
     chunkBucket := {[ "a-0" := JString "He"; "a-1" := JString "llo" ]};
     cacheKeyBucket := ∅;
     aggressiveCache := None |}.

(** A record still being captured. *)
Definition unsealedHeap : Heap :=
  {| responseBucket :=
       {[ "/hello" := {| isSealed := false; chunks := ["a-0"] |} ]};
     chunkBucket := {[ "a-0" := JString "He" ]};
     cacheKeyBucket := ∅;
     aggressiveCache := None |}.

(** The response object after the middleware has run on a miss. *)
Definition captured : @Response Client bool :=
  match middleware options defaultGetCacheKey "r" get res emptyWorld with
  | (Fulfilled res', _) => res'
  | (Rejected _, _) => res
  end.

Definition afterMiss : @World Client :=
  snd (middleware options defaultGetCacheKey "r" get res emptyWorld).

(** Request A of the spec's scenario: two writes, the end of the
    response, and store acknowledgements arriving late. *)
Definition hello : list Step :=
  [HandlerWrite [JString "He"]; HandlerWrite [JString "llo"];
   Ack; HandlerEnd []; Finish; Ack; Ack; Ack; Ack].

End Sample.

(* ===================================================================== *)
(** ** One request, observed *)
(* ===================================================================== *)

(** What one call of the middleware is expected to show from outside, read
    off the branches of [middleware], [checkAndHandleCacheHit] and
    [handleCacheMiss]; the theorems below relate the middleware to it. *)
Section Observed.

Context {Client Ret : Type}.
Variable options : @Options Client Ret.

(** [onCacheHit] and [onCacheMiss] are the two reports of a request. *)
Definition is_report (e : Event) : bool :=
  match e with
  | OnCacheHit | OnCacheMiss => true
  | _ => false
  end.

(** The answer of [checkAndHandleCacheHit] for a looked-up record. *)
Definition hit_of (chunkStore : gmap string value)
    (stored : option CachedResponse) : bool :=
  match stored with
  | Some cr => isSealed cr && bucket_has chunkStore (chunks cr)
  | None => false
  end.

(** The chunk store is asked only about a sealed record. *)
Definition probe_events (stored : option CachedResponse) : list Event :=
  match stored with
  | Some cr => if isSealed cr then [ChunkBucketHas (chunks cr)] else []
  | None => []
  end.

Definition check_events (chunkStore : gmap string value)
    (stored : option CachedResponse) : list Event :=
  probe_events stored
  ++ match stored with
     | Some cr =>
         if hit_of chunkStore stored
         then [OnCacheHit; ReturnCachedResponse cr] else []
     | None => []
     end.

Definition check_log (cacheKey : string) (chunkStore : gmap string value)
    (stored : option CachedResponse) : list string :=
  match stored with
  | Some cr =>
      if isSealed cr then
        if bucket_has chunkStore (chunks cr)
        then ["HIT: " +:+ cacheKey] else ["chunk missing"]
      else []
  | None => []
  end.

Definition request_events (req : Request) (res : @Response Client Ret)
    (cacheKey : string) (h : Heap) : list Event :=
  if bool_decide (method req ≠ "GET") then [OnCacheMiss; Next]
  else
    let stored := responseBucket h !! cacheKey in
    ResponseBucketGet cacheKey
    :: check_events (chunkBucket h) stored
    ++ (if hit_of (chunkBucket h) stored then []
        else OnCacheMiss :: tag_events options req res cacheKey ++ [Next]).

Definition request_log (req : Request) (cacheKey : string) (h : Heap)
  : list string :=
  if bool_decide (method req ≠ "GET") then ["MISS - not a GET request"]
  else
    let stored := responseBucket h !! cacheKey in
    check_log cacheKey (chunkBucket h) stored
    ++ (if hit_of (chunkBucket h) stored then []
        else ["MISS - key not found: " +:+ cacheKey]).

(** The tag index after [updateCacheKeyBucketOptional]. *)
Definition tagged (req : Request) (res : @Response Client Ret)
    (cacheKey : string) (index : gmap string string) : gmap string string :=
  match getCacheTag options with
  | Some getCacheTag =>
      match getCacheTag req res with
      | Some cacheTag => <[cacheTag := cacheKey]> index
      | None => index
      end
  | None => index
  end.

(** An observer handed to [handleCacheMiss] as [onWrite] that returns
    normally and leaves the client connection alone. *)
Definition quiet (observer : value → @M Client unit) : Prop :=
  ∀ v w, ∃ w', observer v w = (Fulfilled (), w') ∧ client w' = client w.

(** [handleCacheMiss] applied to the same response object once per pair
    of [onFinish] and [onWrite], first pair first. *)
Definition patch_all (res : @Response Client Ret)
    (observers : list (@M Client unit * (value → @M Client unit)))
  : @Response Client Ret :=
  foldl (λ r fo, patched r (fst fo) (snd fo)) res observers.

End Observed.

(** What attaching capture to a response object means, and what a store
    failure does to a capture session. *)
Section Attached.

Context {Client Ret : Type}.
Variable options : @Options Client Ret.
Variable chunkId : string → nat → string.

(** [wc] is [w] with the tasks [ts] added behind whatever the queue
    holds, and nothing else changed. *)
Definition queue_gains (ts : list Task) (w wc : @World Client) : Prop :=
  heap wc = heap w ∧ client wc = client w
  ∧ trace wc = trace w ∧ console wc = console w
  ∧ queued (chunkQueue wc) = queued (chunkQueue w) ++ ts.

(** [res'] is [res] with capture attached for the session of [requestId]
    and [cacheKey]: a call of [write] or of [end] first puts the task for
    its first argument on the queue (none for [undefined]) and then is the
    call of the method of [res] with the same arguments; and one finish
    listener has been added, which puts the sealing task on the queue. *)
Definition intercepts (requestId cacheKey : string)
    (res res' : @Response Client Ret) : Prop :=
  (∀ args w, ∃ wc,
     queue_gains (if is_defined (arg0 args)
                  then [CacheChunk requestId (arg0 args) cacheKey] else [])
       w wc
     ∧ write res' args w = write res args wc
     ∧ end_ res' args w = end_ res args wc)
  ∧ ∃ listener,
      finishListeners res' = finishListeners res ++ [listener]
      ∧ ∀ w, ∃ wf,
          listener w = (Fulfilled (), wf)
          ∧ queue_gains [SealChunks requestId cacheKey] w wf.

(** Modelled from the spec: the store rejects the operation the running
    task is suspended on; the queue of ./utils and the tasks of ./chunk
    are not part of the sources at hand.  Section 4.1, failure policy: the
    failed task is reported through [log] and the drain continues with
    the next task.  Section 7 (1): the mutation is abandoned and nothing
    is thrown to the request path.  [message] is the error reported.
    Nothing happens when no task is running. *)
Definition nack (message : string) (w : @World Client) : @World Client :=
  match active (chunkQueue w) with
  | None => w
  | Some _ =>
      let w' := console_log options message w in
      {| heap := heap w'; chunkQueue := drain (chunkQueue w');
         client := client w'; console := console w'; trace := trace w' |}
  end.

(** A capture session in which store operations may also fail. *)
Inductive LiveStep : Type :=
| Calm (s : Step)
| Reject (message : string).

Definition live_step (res : @Response Client Ret) (w : @World Client)
    (s : LiveStep) : @World Client :=
  match s with
  | Calm s => step chunkId res w s
  | Reject message => nack message w
  end.

Definition live_run (res : @Response Client Ret) (w : @World Client)
    (schedule : list LiveStep) : @World Client :=
  foldl (live_step res) w schedule.

(** What the native methods alone hand to the client for the handler's
    calls of a schedule, in call order. *)
Definition deliver
    (nativeWrite nativeEnd : list value → Client → Settled Ret * Client)
    (c : Client) (s : LiveStep) : Client :=
  match s with
  | Calm (HandlerWrite args) => snd (nativeWrite args c)
  | Calm (HandlerEnd args) => snd (nativeEnd args c)
  | _ => c
  end.

Definition delivered
    (nativeWrite nativeEnd : list value → Client → Settled Ret * Client)
    (c : Client) (schedule : list LiveStep) : Client :=
  foldl (deliver nativeWrite nativeEnd) c schedule.

End Attached.

(** The four directives [shouldCache] reads. *)
Definition directives : list string :=
  ["no-cache"; "no-store"; "private"; "max-age"].

(** Whether a value blocks caching when it is the value of a directive:
    [max-age] is compared with [=== 0], the others are tested for
    truthiness. *)
Definition blocks (directive : string) (v : value) : bool :=
  if String.eqb directive "max-age" then strict_eq_zero v else truthy v.

(** Tasks and store operations that belong to the capture session of one
    request: they carry its request id and its cache key. *)
Definition task_of_session (requestId cacheKey : string) (t : Task) : Prop :=
  match t with
  | CacheChunk r _ k => r = requestId ∧ k = cacheKey
  | SealChunks r k => r = requestId ∧ k = cacheKey
  end.

Definition op_of_session (requestId cacheKey : string) (op : StoreOp) : Prop :=
  match op with
  | StoreChunk r _ => r = requestId
  | PersistResponse k _ => k = cacheKey
  end.

(** More collaborators for examples: a cache-tag function, and a second
    request for the same URL. *)
Module Sample2.

Definition taggedOptions : @Options Sample.Client bool :=
  {| debug := false;
     getCacheKey := λ _ _ normalizedPath, normalizedPath;
     getCacheTag := Some (λ _ _, Some "greeting") |}.

Definition again : Request := {| method := "GET"; originalUrl := "/hello" |}.

Definition twoSessions
  : list (@M Sample.Client unit * (value → @M Sample.Client unit)) :=
  [(onFinish "r" "/hello", onWrite "r" "/hello");
   (onFinish "s" "/hello", onWrite "s" "/hello")].

(** The scenario of [Sample.hello] with the store rejecting the first
    chunk and, later, the sealing. *)
Definition troubled : list LiveStep :=
  [Calm (HandlerWrite [JString "He"]); Reject "ECONNRESET";
   Calm (HandlerWrite [JString "llo"]); Calm Ack; Calm (HandlerEnd []);
   Calm Finish; Calm Ack; Reject "ETIMEDOUT"].

End Sample2.

(* ===================================================================== *)
(** ** The cacheability predicate *)
(* ===================================================================== *)

Module ShouldCacheFacts.

Example shouldCache_empty : shouldCache (Some ∅) = true.
Proof. reflexivity. Qed.

Example shouldCache_no_store :
  shouldCache (Some {[ "no-store" := JBool true ]}) = false.
Proof. reflexivity. Qed.

Example shouldCache_private_string :
  shouldCache (Some {[ "private" := JString "yes" ]}) = false.
Proof. reflexivity. Qed.

Example shouldCache_max_age_0 :
  shouldCache (Some {[ "max-age" := JNumber zero ]}) = false.
Proof. reflexivity. Qed.

Example shouldCache_max_age_neg_0 :
  shouldCache (Some {[ "max-age" := JNumber neg_zero ]}) = false.
Proof. reflexivity. Qed.

Example shouldCache_max_age_string :
  shouldCache (Some {[ "max-age" := JString "0" ]}) = true.
Proof. reflexivity. Qed.

Example shouldCache_max_age_minus_one :
  shouldCache (Some {[ "max-age" := JNumber minus_one ]}) = true.
Proof. reflexivity. Qed.

Example shouldCache_max_age_hour :
  shouldCache (Some {[ "max-age" := JNumber hour ]}) = true.
Proof. reflexivity. Qed.

Lemma strict_eq_zero_spec v :
  strict_eq_zero v = true ↔ ∃ sign, v = JNumber (S754_zero sign).
Proof.
  split.
  - destruct v as [| | |[]| | |]; simpl; try discriminate; eauto.
  - intros [sign ->]. reflexivity.
Qed.

Lemma prop_strict_zero (cc : gmap string value) key :
  strict_eq_zero (prop cc key) = true
  ↔ ∃ sign, cc !! key = Some (JNumber (S754_zero sign)).
Proof.
  rewrite strict_eq_zero_spec. unfold prop.
  destruct (cc !! key) as [v|] eqn:E; simpl.
  - split; intros [sign H]; exists sign; congruence.
  - split; intros [sign H]; discriminate.
Qed.

Lemma shouldCache_false_blocked (cc : gmap string value) :
  shouldCache (Some cc) = false ↔ blocked cc.
Proof.
  unfold shouldCache, blocked. rewrite <- prop_strict_zero.
  destruct (truthy (prop cc "no-cache")),
           (truthy (prop cc "no-store")),
           (truthy (prop cc "private")),
           (strict_eq_zero (prop cc "max-age")); simpl;
    intuition discriminate.
Qed.

(** C5.  [shouldCache] answers [false] exactly when a directive map is
    present and one of [no-cache], [no-store], [private] is truthy or
    [max-age] is the number 0; for [null] it answers [true]. *)
Theorem shouldCache_false_iff (cacheControl : option (gmap string value)) :
  (shouldCache cacheControl = false
   ↔ ∃ cc, cacheControl = Some cc ∧ blocked cc)
  ∧ shouldCache None = true.
Proof.
  split; [|reflexivity].
  destruct cacheControl as [cc|].
  - rewrite shouldCache_false_blocked. split.
    + intros H. exists cc. done.
    + intros (cc' & [= <-] & H). done.
  - split; [discriminate|]. intros (cc & [=] & _).
Qed.

(** C9.  With no other blocking directive truthy, [shouldCache] answers
    [false] only for a [max-age] that is the number 0: a string (also
    ["0"]), a number other than zero (also a negative one) and any other
    value that is not strictly equal to 0 leave the response cacheable. *)
Theorem max_age_only_strict_zero (cc : gmap string value) :
  truthy (prop cc "no-cache") = false →
  truthy (prop cc "no-store") = false →
  truthy (prop cc "private") = false →
  (shouldCache (Some cc) = false
   ↔ ∃ sign, cc !! "max-age" = Some (JNumber (S754_zero sign)))
  ∧ (∀ s, cc !! "max-age" = Some (JString s) → shouldCache (Some cc) = true)
  ∧ (∀ sign m e, cc !! "max-age" = Some (JNumber (S754_finite sign m e)) →
       shouldCache (Some cc) = true)
  ∧ (strict_eq_zero (prop cc "max-age") = false →
       shouldCache (Some cc) = true).
Proof.
  intros Hc Hs Hp.
  assert (Hsc : shouldCache (Some cc) = negb (strict_eq_zero (prop cc "max-age"))).
  { unfold shouldCache. rewrite Hc, Hs, Hp. simpl.
    by destruct (strict_eq_zero _). }
  repeat split.
  - rewrite Hsc, <- prop_strict_zero. by destruct (strict_eq_zero _).
  - rewrite Hsc, <- prop_strict_zero. by intros ->.
  - intros s H. rewrite Hsc. unfold prop. by rewrite H.
  - intros sign m e H. rewrite Hsc. unfold prop. by rewrite H.
  - intros H. by rewrite Hsc, H.
Qed.

Lemma max_age_only_strict_zero_witness :
  shouldCache (Some {[ "max-age" := JString "0" ]}) = true
  ∧ shouldCache (Some {[ "max-age" := JNumber minus_one ]}) = true.
Proof.
  split.
  - refine (proj1 (proj2 (max_age_only_strict_zero
              {[ "max-age" := JString "0" ]} _ _ _)) "0" _); reflexivity.
  - refine (proj1 (proj2 (proj2 (max_age_only_strict_zero
              {[ "max-age" := JNumber minus_one ]} _ _ _))) true 1%positive 0%Z _);
      reflexivity.
Defined.

End ShouldCacheFacts.

(* ===================================================================== *)
(** ** The request path *)
(* ===================================================================== *)

Section RequestPath.

Context {Client Ret : Type}.
Variable options : @Options Client Ret.
Variable defaultGetCacheKey : Request → string.

Implicit Types (req : Request) (res : @Response Client Ret)
  (w : @World Client).

(** Closes [e ∉ l] for an explicit list [l] of events none of which has
    the constructor of [e]. *)
Ltac not_in_events :=
  let H := fresh "H" in
  intros H;
  repeat (apply elem_of_cons in H as [H|H]; [discriminate H|]);
  by apply elem_of_nil in H.

Lemma bucket_has_spec {V} (bucket : gmap string V) (keys : list string) :
  bucket_has bucket keys = true
  ↔ ∀ id, id ∈ keys → is_Some (bucket !! id).
Proof.
  unfold bucket_has. rewrite forallb_forall. split.
  - intros H id Hid. apply list_elem_of_In in Hid.
    specialize (H id Hid). by apply bool_decide_eq_true in H.
  - intros H id Hid. apply bool_decide_eq_true, H. by apply list_elem_of_In.
Qed.

(** What [purge] does, for any tag and any state. *)
Lemma purge_result (cacheTag : string) w :
  purge cacheTag w
  = (Rejected ("purge for cache tag " +:+ cacheTag
               +:+ " not implemented - API could still change - do not use"),
     w).
Proof. reflexivity. Qed.

(** The middleware on a request that is not a GET. *)
Lemma middleware_non_get requestId req res w :
  method req ≠ "GET" →
  middleware options defaultGetCacheKey requestId req res w
  = (Fulfilled res,
     let w1 := console_log options "MISS - not a GET request" w in
     {| heap := heap w1; chunkQueue := chunkQueue w1; client := client w1;
        console := console w1;
        trace := (trace w1 ++ [OnCacheMiss]) ++ [Next] |}).
Proof.
  intros Hm. unfold middleware, handleNonGetRequestsAsCacheMiss.
  rewrite bool_decide_eq_true_2 by done. reflexivity.
Qed.

Lemma console_log_frame msg w :
  heap (console_log options msg w) = heap w
  ∧ chunkQueue (console_log options msg w) = chunkQueue w
  ∧ client (console_log options msg w) = client w
  ∧ trace (console_log options msg w) = trace w.
Proof. unfold console_log. by destruct (debug options). Qed.

(** C8.  For every cache tag and every state of the stores, [purge] is
    rejected with the "not implemented" error naming the tag; it is never
    fulfilled and it leaves every bucket as it was. *)
Theorem purge_not_implemented (cacheTag : string) w :
  ∃ message,
    purge cacheTag w = (Rejected message, w)
    ∧ message = "purge for cache tag " +:+ cacheTag
                +:+ " not implemented - API could still change - do not use"
    ∧ (∀ u, fst (purge cacheTag w) ≠ Fulfilled u)
    ∧ heap (snd (purge cacheTag w)) = heap w.
Proof.
  eexists. rewrite purge_result. repeat split. intros u [=].
Qed.

(** C4.  A request whose method is not GET is passed to the handler with
    the response object, the stores, the queue and the client untouched:
    no bucket is read or written and [write]/[end] are not replaced. *)
Theorem non_get_bypasses_cache requestId req res w :
  method req ≠ "GET" →
  ∃ w' events,
    middleware options defaultGetCacheKey requestId req res w
    = (Fulfilled res, w')
    ∧ heap w' = heap w
    ∧ chunkQueue w' = chunkQueue w
    ∧ client w' = client w
    ∧ trace w' = trace w ++ events
    ∧ handler_invoked events
    ∧ ¬ served_from_cache events
    ∧ (∀ key, ResponseBucketGet key ∉ events)
    ∧ (∀ keys, ChunkBucketHas keys ∉ events)
    ∧ (∀ tag key, CacheKeyBucketSet tag key ∉ events)
    ∧ (∀ t, TaskDone t ∉ events).
Proof.
  intros Hm. eexists _, [OnCacheMiss; Next].
  rewrite middleware_non_get by done. simpl.
  destruct (console_log_frame "MISS - not a GET request" w)
    as (-> & -> & -> & ->).
  split; [reflexivity|]. repeat split.
  - by rewrite <- app_assoc.
  - unfold handler_invoked. apply elem_of_cons. right. apply elem_of_cons. by left.
  - intros [cr H]. revert H. not_in_events.
  - intros key. not_in_events.
  - intros keys. not_in_events.
  - intros tag key. not_in_events.
  - intros t. not_in_events.
Qed.

(** C10.  For a request whose method is not GET the middleware calls
    [onCacheMiss] once and then [next], and does nothing else that is
    visible. *)
Theorem non_get_reports_miss requestId req res w :
  method req ≠ "GET" →
  ∃ w',
    middleware options defaultGetCacheKey requestId req res w
    = (Fulfilled res, w')
    ∧ trace w' = trace w ++ [OnCacheMiss; Next].
Proof.
  intros Hm. eexists. rewrite middleware_non_get by done.
  split; [reflexivity|]. simpl.
  destruct (console_log_frame "MISS - not a GET request" w)
    as (_ & _ & _ & ->).
  by rewrite <- app_assoc.
Qed.

(** The middleware on a GET request, by what the lookup finds. *)
Lemma replayable_dec (h : Heap) (cacheKey : string) :
  replayable h cacheKey
  ↔ (∃ cr, responseBucket h !! cacheKey = Some cr
           ∧ isSealed cr = true
           ∧ bucket_has (chunkBucket h) (chunks cr) = true).
Proof.
  unfold replayable. split; intros (cr & Hcr & Hs & Hc); exists cr;
    (split; [done|]); (split; [done|]); by apply bucket_has_spec.
Qed.

Lemma checkAndHandleCacheHit_result cachedResponse req res cacheKey w :
  ∃ (hit : bool) w' events,
    checkAndHandleCacheHit options cachedResponse req res cacheKey w
    = (Fulfilled hit, w')
    ∧ heap w' = heap w ∧ chunkQueue w' = chunkQueue w
    ∧ client w' = client w
    ∧ trace w' = trace w ++ events
    ∧ (Next ∉ events)
    ∧ (hit = true ↔ served_from_cache events)
    ∧ (hit = true
       ↔ (∃ cr, cachedResponse = Some cr ∧ isSealed cr = true
                ∧ bucket_has (chunkBucket (heap w)) (chunks cr) = true)).
Proof.
  unfold checkAndHandleCacheHit, chunkBucket_has, returnCachedResponse, log,
    console_log, emit, modify, gets, mbind, M_bind, mret, M_ret.
  destruct cachedResponse as [cr|]; [destruct (isSealed cr) eqn:Hs|]; simpl.
  - destruct (bucket_has (chunkBucket (heap w)) (chunks cr)) eqn:Hc;
      destruct (debug options); simpl.
    all: eexists _, _, _; split; [reflexivity|]; simpl.
    all: do 3 (split; [reflexivity|]).
    all: split; [rewrite <- ?app_assoc; reflexivity|].
    all: split; [not_in_events|].
    all: split; [split|split]; try done.
    all: try (intros _; exists cr; do 2 (apply elem_of_cons; right);
              apply elem_of_cons; by left).
    all: try (intros [cr' H]; exfalso; revert H; not_in_events).
    all: try (intros _; by exists cr).
    all: intros (cr' & [= <-] & _ & ?); congruence.
  - eexists false, w, []. rewrite app_nil_r. do 4 (split; [reflexivity|]).
    split; [reflexivity|]. split; [not_in_events|]. split; split; try done.
    + intros [cr' H]. revert H. not_in_events.
    + intros (cr' & [= <-] & ? & _). congruence.
  - eexists false, w, []. rewrite app_nil_r. do 4 (split; [reflexivity|]).
    split; [reflexivity|]. split; [not_in_events|]. split; split; try done.
    + intros [cr' H]. revert H. not_in_events.
    + intros (cr' & [=] & _).
Qed.

Lemma served_from_cache_app (l1 l2 : list Event) :
  served_from_cache (l1 ++ l2)
  ↔ served_from_cache l1 ∨ served_from_cache l2.
Proof.
  unfold served_from_cache. split.
  - intros [cr [H|H]%elem_of_app]; eauto.
  - intros [[cr H]|[cr H]]; exists cr; apply elem_of_app; eauto.
Qed.

Lemma handleCacheMiss_result req res onFinish onWrite cacheKey w :
  ∃ w',
    handleCacheMiss options req res onFinish onWrite cacheKey w
    = (Fulfilled (patched res onFinish onWrite), w')
    ∧ responseBucket (heap w') = responseBucket (heap w)
    ∧ chunkBucket (heap w') = chunkBucket (heap w)
    ∧ aggressiveCache (heap w') = aggressiveCache (heap w)
    ∧ chunkQueue w' = chunkQueue w
    ∧ client w' = client w
    ∧ trace w' = trace w ++ OnCacheMiss :: tag_events options req res cacheKey.
Proof.
  unfold handleCacheMiss, updateCacheKeyBucketOptional, tag_events,
    cacheKeyBucket_set, log, console_log, emit, modify, set_heap,
    mbind, M_bind, mret, M_ret.
  destruct (getCacheTag options) as [f|]; [destruct (f req res)|];
    destruct (debug options); simpl.
  all: eexists; split; [reflexivity|]; simpl.
  all: do 5 (split; [reflexivity|]).
  all: by rewrite <- ?app_assoc.
Qed.

Lemma tag_events_only req res cacheKey e :
  e ∈ tag_events options req res cacheKey →
  ∃ cacheTag, e = CacheKeyBucketSet cacheTag cacheKey.
Proof.
  unfold tag_events.
  destruct (getCacheTag options) as [f|]; [destruct (f req res)|].
  - intros ->%list_elem_of_singleton. eauto.
  - by intros ?%elem_of_nil.
  - by intros ?%elem_of_nil.
Qed.

(** The middleware on a GET request. *)
Lemma middleware_get requestId req res w :
  method req = "GET" →
  let cacheKey := cacheKeyOf options defaultGetCacheKey req res in
  ∃ res' w' events,
    middleware options defaultGetCacheKey requestId req res w
    = (Fulfilled res', w')
    ∧ trace w' = trace w ++ events
    ∧ responseBucket (heap w') = responseBucket (heap w)
    ∧ chunkBucket (heap w') = chunkBucket (heap w)
    ∧ aggressiveCache (heap w') = Some []
    ∧ chunkQueue w' = newQueue
    ∧ client w' = client w
    ∧ (served_from_cache events ↔ replayable (heap w) cacheKey)
    ∧ (replayable (heap w) cacheKey →
         ¬ handler_invoked events ∧ res' = res)
    ∧ (¬ replayable (heap w) cacheKey →
         handler_invoked events
         ∧ res' = patched res (onFinish requestId cacheKey)
                             (onWrite requestId cacheKey)).
Proof.
  intros Hm cacheKey. unfold middleware, handleNonGetRequestsAsCacheMiss.
  rewrite bool_decide_eq_false_2 by (by intros []).
  unfold reset_aggressiveCache, getChunkFunctions, responseBucket_get,
    next, emit, modify, gets, set_heap, set_chunkQueue.
  unfold mbind, M_bind, mret, M_ret. simpl.
  change (getCacheKey options req res (defaultGetCacheKey req)) with cacheKey.
  match goal with
  | |- context [checkAndHandleCacheHit options ?c req res cacheKey ?w1] =>
      destruct (checkAndHandleCacheHit_result c req res cacheKey w1)
        as (hit & w2 & ev & -> & Hh & Hq & Hc & Ht & Hnext & Hserved & Hhit)
  end.
  simpl in *.
  assert (Hrep : replayable (heap w) cacheKey ↔ hit = true).
  { rewrite replayable_dec, Hhit. split; intros (cr & ? & ?); eauto. }
  destruct hit.
  - exists res, w2, (ResponseBucketGet cacheKey :: ev).
    rewrite Hh, Hq, Hc, Ht, <- app_assoc. simpl.
    do 7 (split; [reflexivity|]).
    split; [|split].
    + rewrite Hrep. split; [done|]. intros _.
      apply (served_from_cache_app [_] ev). right. by apply Hserved.
    + intros _. split; [|done]. unfold handler_invoked.
      rewrite elem_of_cons. by intros [[=]|?].
    + intros Hn. exfalso. apply Hn. by apply Hrep.
  - destruct (handleCacheMiss_result req res (onFinish requestId cacheKey)
                (onWrite requestId cacheKey) cacheKey w2)
      as (w3 & -> & Hr3 & Hc3 & Ha3 & Hq3 & Hcl3 & Ht3).
    eexists _, _, (ResponseBucketGet cacheKey :: ev
                   ++ (OnCacheMiss :: tag_events options req res cacheKey) ++ [Next]).
    split; [reflexivity|]. simpl.
    rewrite Hr3, Hc3, Ha3, Hq3, Hcl3, Ht3, Hh, Hq, Hc, Ht. simpl.
    split; [by rewrite <- !app_assoc|].
    do 5 (split; [reflexivity|]).
    split; [|split].
    + rewrite Hrep. split; [|done].
      intros [Hs|Hs]%(served_from_cache_app [_]).
      * destruct Hs as [cr H]. revert H. not_in_events.
      * apply served_from_cache_app in Hs as [Hs|Hs]; [by apply Hserved|].
        destruct Hs as [cr H]. exfalso.
        apply elem_of_cons in H as [[=]|H].
        apply elem_of_app in H as [H|H]; [|revert H; not_in_events].
        by apply tag_events_only in H as [? [=]].
    + intros Hr. apply Hrep in Hr. discriminate.
    + intros _. split; [|done]. unfold handler_invoked.
      apply elem_of_cons. right. apply elem_of_app. right.
      apply elem_of_cons. right. apply elem_of_app. right.
      by apply list_elem_of_singleton.
Qed.

End RequestPath.

(* ===================================================================== *)
(** ** The capture session *)
(* ===================================================================== *)

Section CaptureSession.

Context {Client Ret : Type}.
Variable chunkId : string → nat → string.
Variables nativeWrite nativeEnd
  : list value → Client → Settled Ret * Client.
Variables requestId cacheKey : string.

Implicit Types (w : @World Client) (q : Queue) (t : Task) (h : Heap).

Local Abbreviation capturing :=
  (capturing nativeWrite nativeEnd requestId cacheKey).

Lemma onWrite_result (chunk : value) w :
  onWrite requestId cacheKey chunk w
  = (Fulfilled (),
     if is_defined chunk
     then set_chunkQueue (push_run (CacheChunk requestId chunk cacheKey)) w
     else w).
Proof. unfold onWrite. by destruct (is_defined chunk). Qed.

Lemma onFinish_result w :
  onFinish requestId cacheKey w
  = (Fulfilled (),
     set_chunkQueue (push_run (SealChunks requestId cacheKey)) w).
Proof. reflexivity. Qed.

Lemma queued_push_run t q :
  queued (push_run t q) = queued q ++ [t].
Proof.
  unfold push_run, queued, drain. simpl.
  destruct (active q) as [[[t0 op] ops]|]; simpl; [done|].
  destruct (pending q) as [|t0 rest]; simpl.
  - by destruct (task_ops t).
  - by destruct (task_ops t0).
Qed.

(** A handler call or the finish event acts on the queue alone: the
    tasks it pushes go through [push_run]; heap and trace stay as they
    are. *)
Lemma step_handler w (s : Step) :
  is_ack s = false →
  heap (step chunkId capturing w s) = heap w
  ∧ trace (step chunkId capturing w s) = trace w
  ∧ console (step chunkId capturing w s) = console w
  ∧ chunkQueue (step chunkId capturing w s)
    = enqueue (pushed requestId cacheKey [s]) (chunkQueue w).
Proof.
  destruct s as [args|args| |]; intros Hs; try discriminate; simpl.
  - unfold exec, capturing, patched, nativeResponse, native. simpl.
    unfold mbind, M_bind. rewrite onWrite_result.
    destruct (is_defined (arg0 args)); simpl;
      by destruct (nativeWrite args (client w)).
  - unfold exec, capturing, patched, nativeResponse, native. simpl.
    unfold mbind, M_bind. rewrite onWrite_result.
    destruct (is_defined (arg0 args)); simpl;
      by destruct (nativeEnd args (client w)).
  - done.
Qed.

Lemma step_ack w : step chunkId capturing w Ack = ack chunkId w.
Proof. reflexivity. Qed.

Lemma apply_ops_app (ops1 ops2 : list StoreOp) h :
  apply_ops chunkId (ops1 ++ ops2) h
  = apply_ops chunkId ops2 (apply_ops chunkId ops1 h).
Proof. apply foldl_app. Qed.

Lemma all_ops_task_ops t op ops :
  task_ops t = (op, ops) → all_ops t = op :: ops.
Proof. unfold all_ops. by intros ->. Qed.

(** Pushing a task keeps the session invariant, with the task added. *)
Lemma session_inv_push heap1 trace1 tasks t w :
  session_inv chunkId heap1 trace1 tasks w →
  session_inv chunkId heap1 trace1 (tasks ++ [t])
    (set_chunkQueue (push_run t) w).
Proof.
  intros (done & acked & Htr & Hq & Hh & Ha).
  exists done, acked. simpl.
  rewrite queued_push_run, app_assoc, Hq.
  do 3 (split; [done|]).
  unfold push_run, drain. simpl.
  destruct (active (chunkQueue w)) as [[[t0 op] ops]|]; simpl; [done|].
  destruct Ha as [-> ->]. simpl.
  destruct (task_ops t) as [op ops] eqn:Ht. simpl.
  by apply all_ops_task_ops.
Qed.

Lemma session_inv_enqueue heap1 trace1 tasks ts w :
  session_inv chunkId heap1 trace1 tasks w →
  ∀ w', heap w' = heap w → trace w' = trace w →
        chunkQueue w' = enqueue ts (chunkQueue w) →
        session_inv chunkId heap1 trace1 (tasks ++ ts) w'.
Proof.
  revert tasks w. induction ts as [|t ts IH]; intros tasks w Hinv w' Hh Ht Hq.
  - rewrite app_nil_r. unfold session_inv in *. simpl in Hq.
    by rewrite Hh, Ht, Hq.
  - replace (tasks ++ t :: ts) with ((tasks ++ [t]) ++ ts)
      by (by rewrite <- app_assoc).
    apply (IH _ (set_chunkQueue (push_run t) w));
      [by apply session_inv_push|done..].
Qed.

(** An acknowledgement keeps the session invariant. *)
Lemma session_inv_ack heap1 trace1 tasks w :
  session_inv chunkId heap1 trace1 tasks w →
  session_inv chunkId heap1 trace1 tasks (ack chunkId w).
Proof.
  intros (done & acked & Htr & Hq & Hh & Ha). unfold ack.
  destruct (active (chunkQueue w)) as [[[t op] ops]|] eqn:Hact.
  - destruct ops as [|op' ops'].
    + exists (done ++ [t]), []. simpl.
      split; [by rewrite Htr, map_app, app_assoc|].
      split.
      { rewrite <- Hq. unfold queued, drain. rewrite Hact.
        destruct (pending (chunkQueue w)) as [|t' rest]; simpl.
        - by rewrite app_nil_r.
        - destruct (task_ops t'); simpl. by rewrite <- app_assoc. }
      split.
      { rewrite Hh, flat_map_app, app_nil_r. simpl.
        rewrite app_nil_r, Ha, !apply_ops_app. done. }
      unfold drain.
      destruct (pending (chunkQueue w)) as [|t' rest]; simpl; [done|].
      destruct (task_ops t') eqn:Ht'; simpl. by apply all_ops_task_ops.
    + exists done, (acked ++ [op]). simpl.
      split; [done|]. split.
      { rewrite <- Hq. unfold queued. simpl. by rewrite Hact. }
      split.
      { by rewrite Hh, app_assoc, !apply_ops_app. }
      by rewrite <- app_assoc.
  - exists done, acked. by rewrite Hact.
Qed.

Lemma session_inv_step heap1 trace1 tasks w (s : Step) :
  session_inv chunkId heap1 trace1 tasks w →
  session_inv chunkId heap1 trace1
    (tasks ++ pushed requestId cacheKey [s])
    (step chunkId capturing w s).
Proof.
  intros Hinv. destruct (is_ack s) eqn:Hs.
  - destruct s; try discriminate. simpl. rewrite app_nil_r.
    by apply session_inv_ack.
  - destruct (step_handler w s Hs) as (Hh & Ht & _ & Hq).
    by eapply session_inv_enqueue.
Qed.

Lemma pushed_app (l1 l2 : list Step) :
  pushed requestId cacheKey (l1 ++ l2)
  = pushed requestId cacheKey l1 ++ pushed requestId cacheKey l2.
Proof. apply flat_map_app. Qed.

Lemma session_inv_run heap1 trace1 tasks w (schedule : list Step) :
  session_inv chunkId heap1 trace1 tasks w →
  session_inv chunkId heap1 trace1
    (tasks ++ pushed requestId cacheKey schedule)
    (run chunkId capturing w schedule).
Proof.
  revert tasks w. induction schedule as [|s schedule IH]; intros tasks w Hinv.
  - by rewrite app_nil_r.
  - change (s :: schedule) with ([s] ++ schedule).
    rewrite pushed_app, app_assoc. apply IH. by apply session_inv_step.
Qed.

(** A session starts with an empty queue. *)
Lemma session_inv_start w :
  chunkQueue w = newQueue →
  session_inv chunkId (heap w) (trace w) [] w.
Proof.
  intros Hq. exists [], []. rewrite Hq. simpl.
  by rewrite app_nil_r.
Qed.

Lemma run_app w (l1 l2 : list Step) :
  run chunkId capturing w (l1 ++ l2)
  = run chunkId capturing (run chunkId capturing w l1) l2.
Proof. apply foldl_app. Qed.

(** *** Draining *)

(** Each acknowledgement retires one pending store operation. *)
Lemma remaining_ops_ack w :
  (active (chunkQueue w) = None → pending (chunkQueue w) = []) →
  remaining_ops (chunkQueue (ack chunkId w))
  = tail (remaining_ops (chunkQueue w)).
Proof.
  intros Hidle. unfold ack, remaining_ops.
  destruct (active (chunkQueue w)) as [[[t op] ops]|] eqn:Hact.
  - destruct ops as [|op' ops']; simpl; [|done].
    unfold drain.
    destruct (pending (chunkQueue w)) as [|t' rest]; simpl; [done|].
    unfold all_ops. by destruct (task_ops t').
  - by rewrite Hact, Hidle.
Qed.

Lemma session_inv_idle heap1 trace1 tasks w :
  session_inv chunkId heap1 trace1 tasks w →
  active (chunkQueue w) = None → pending (chunkQueue w) = [].
Proof. intros (done & acked & _ & _ & _ & Ha) Hact. rewrite Hact in Ha. tauto. Qed.

Lemma drains_after heap1 trace1 (n : nat) : ∀ tasks w,
  session_inv chunkId heap1 trace1 tasks w →
  length (remaining_ops (chunkQueue w)) = n →
  idle (chunkQueue (run chunkId capturing w (replicate n Ack))).
Proof.
  induction n as [|n IH]; intros tasks w Hinv Hlen.
  - simpl. apply nil_length_inv in Hlen. unfold remaining_ops in Hlen.
    destruct (active (chunkQueue w)) as [[[t op] ops]|] eqn:Hact;
      [discriminate|].
    split; [|done]. by eapply session_inv_idle.
  - simpl. apply (IH tasks); [by apply session_inv_ack|].
    rewrite remaining_ops_ack by (by eapply session_inv_idle).
    destruct (remaining_ops (chunkQueue w)); simpl in *; lia.
Qed.

(** Once the queue is idle, every pushed task has completed, in push
    order, and the heap is the one obtained by running the tasks one
    after the other. *)
Lemma session_inv_drained heap1 trace1 tasks w :
  session_inv chunkId heap1 trace1 tasks w →
  idle (chunkQueue w) →
  trace w = trace1 ++ map TaskDone tasks
  ∧ heap w = apply_ops chunkId (flat_map all_ops tasks) heap1.
Proof.
  intros (done & acked & Htr & Hq & Hh & Ha) [Hp Hact].
  rewrite Hact in Ha. destruct Ha as [-> _].
  unfold queued in Hq. rewrite Hact, Hp, app_nil_r in Hq. subst done.
  by rewrite app_nil_r in Hh.
Qed.

(** *** The tasks of a schedule *)

Lemma pushed_handler_calls (schedule : list Step) :
  pushed requestId cacheKey (handler_calls schedule)
  = pushed requestId cacheKey schedule.
Proof.
  unfold handler_calls. induction schedule as [|s schedule IH]; [done|].
  rewrite filter_cons. destruct s; simpl in *;
    try (rewrite decide_True by done); try (rewrite decide_False by done);
    simpl; by rewrite ?IH.
Qed.

Lemma pushed_calls (calls : list Step) :
  Forall (λ s, is_finish s = false) calls →
  pushed requestId cacheKey calls
  = map (λ c, CacheChunk requestId c cacheKey) (written calls).
Proof.
  induction 1 as [|s calls Hs _ IH]; [done|].
  change (s :: calls) with ([s] ++ calls).
  unfold written. rewrite pushed_app, flat_map_app, map_app.
  fold (written calls). rewrite IH. f_equal.
  destruct s as [args|args| |]; simpl; try discriminate; try done;
    by destruct (is_defined (arg0 args)).
Qed.

Lemma pushed_complete (schedule calls : list Step) :
  handler_calls schedule = calls ++ [Finish] →
  Forall (λ s, is_finish s = false) calls →
  pushed requestId cacheKey schedule
  = map (λ c, CacheChunk requestId c cacheKey) (written calls)
    ++ [SealChunks requestId cacheKey].
Proof.
  intros Hcalls Hfin.
  by rewrite <- pushed_handler_calls, Hcalls, pushed_app, pushed_calls.
Qed.

(** *** What the tasks leave in the stores *)

Local Abbreviation chunk_task := (λ c, CacheChunk requestId c cacheKey).

Lemma apply_chunk_task (c : value) h :
  apply_ops chunkId (all_ops (chunk_task c)) h
  = do_op chunkId (PersistResponse cacheKey false)
      (do_op chunkId (StoreChunk requestId c) h).
Proof. reflexivity. Qed.

Lemma chunk_tasks_ids (cs : list value) h :
  let h' := apply_ops chunkId (flat_map all_ops (map chunk_task cs)) h in
  let ids0 := default [] (aggressiveCache h) in
  default [] (aggressiveCache h')
  = ids0 ++ (chunkId requestId <$> seq (length ids0) (length cs)).
Proof.
  simpl. induction cs as [|c cs IH] using rev_ind.
  - simpl. by rewrite app_nil_r.
  - rewrite map_app, flat_map_app, apply_ops_app. simpl.
    rewrite IH, !length_app, length_fmap, length_seq.
    by rewrite Nat.add_1_r, seq_S, fmap_app, app_assoc.
Qed.

Lemma chunk_tasks_lookup (bound : nat) (cs : list value) h :
  (∀ n m, (n < bound)%nat → (m < bound)%nat →
          chunkId requestId n = chunkId requestId m → n = m) →
  let h' := apply_ops chunkId (flat_map all_ops (map chunk_task cs)) h in
  let ids0 := default [] (aggressiveCache h) in
  (length ids0 + length cs ≤ bound)%nat →
  ∀ i c, cs !! i = Some c →
         chunkBucket h' !! chunkId requestId (length ids0 + i) = Some c.
Proof.
  intros Hinj. simpl. induction cs as [|c cs IH] using rev_ind.
  - intros _ i c [=].
  - rewrite map_app, flat_map_app, apply_ops_app. simpl.
    rewrite chunk_tasks_ids, !length_app, length_fmap, length_seq.
    simpl. intros Hbound i c' Hi.
    apply lookup_snoc_Some in Hi as [[Hlt Hi]|[-> ->]].
    + rewrite lookup_insert_ne; [apply IH; [lia|done]|].
      intros Heq%Hinj; lia.
    + by rewrite lookup_insert_eq.
Qed.

(** Distinct identities for the chunks of one session are all that is
    needed of [chunkId]. *)
Lemma NoDup_chunkId_inj (bound : nat) :
  NoDup (chunkId requestId <$> seq 0 bound) →
  ∀ n m, (n < bound)%nat → (m < bound)%nat →
         chunkId requestId n = chunkId requestId m → n = m.
Proof.
  intros Hnd n m Hn Hm Heq.
  apply (NoDup_lookup _ n m (chunkId requestId n) Hnd).
  - by rewrite list_lookup_fmap, lookup_seq_lt.
  - by rewrite list_lookup_fmap, lookup_seq_lt, Heq.
Qed.

Lemma sealed_record (cs : list value) h :
  aggressiveCache h = Some [] →
  let h' := apply_ops chunkId
              (flat_map all_ops
                 (map chunk_task cs ++ [SealChunks requestId cacheKey])) h in
  responseBucket h' !! cacheKey
  = Some {| isSealed := true;
            chunks := chunkId requestId <$> seq 0 (length cs) |}
  ∧ chunkBucket h'
    = chunkBucket (apply_ops chunkId
                     (flat_map all_ops (map chunk_task cs)) h).
Proof.
  intros Hagg. simpl.
  rewrite flat_map_app, apply_ops_app. simpl.
  rewrite chunk_tasks_ids, Hagg. simpl.
  by rewrite lookup_insert_eq.
Qed.

Lemma sealed_resolve (cs : list value) h :
  NoDup (chunkId requestId <$> seq 0 (length cs)) →
  aggressiveCache h = Some [] →
  let h' := apply_ops chunkId
              (flat_map all_ops
                 (map chunk_task cs ++ [SealChunks requestId cacheKey])) h in
  resolve (chunkBucket h') (chunkId requestId <$> seq 0 (length cs))
  = Some cs.
Proof.
  intros Hnd Hagg. simpl.
  destruct (sealed_record cs h Hagg) as [_ ->].
  pose proof (chunk_tasks_lookup (length cs) cs h
                (NoDup_chunkId_inj _ Hnd)) as Hlk.
  rewrite Hagg in Hlk. simpl in Hlk. specialize (Hlk (le_n _)).
  unfold resolve. apply mapM_Some, Forall2_same_length_lookup_2.
  - by rewrite length_fmap, length_seq.
  - intros i id c Hid Hc. rewrite list_lookup_fmap in Hid.
    destruct (seq 0 (length cs) !! i) as [j|] eqn:Hj; [|done].
    apply lookup_seq in Hj as [-> _]. simpl in Hid.
    injection Hid as <-. by apply Hlk.
Qed.

(** Operations that are not the sealing one leave no sealed record
    behind that was not there before. *)
Lemma unsealed_ops_responseBucket (ops : list StoreOp) : ∀ h key cr,
  Forall (λ op, is_seal op = false) ops →
  responseBucket (apply_ops chunkId ops h) !! key = Some cr →
  isSealed cr = true →
  responseBucket h !! key = Some cr.
Proof.
  induction ops as [|op ops IH]; intros h key cr Hops Hcr Hs; [done|].
  apply Forall_cons in Hops as [Hop Hops].
  specialize (IH _ _ _ Hops Hcr Hs).
  destruct op as [rid c|key' sealed]; simpl in *; [done|].
  subst sealed. destruct (decide (key' = key)) as [->|Hne].
  - rewrite lookup_insert_eq in IH. injection IH as <-. discriminate.
  - by rewrite lookup_insert_ne in IH.
Qed.

(** The sealing operation is the last operation of its task, so the
    operations of a task acknowledged while it is running, and those of
    the tasks that are not sealing tasks, are not sealing operations. *)
Lemma acked_not_seal t (acked : list StoreOp) op ops :
  all_ops t = acked ++ op :: ops →
  Forall (λ op, is_seal op = false) acked.
Proof.
  destruct t as [rid c key|rid key]; unfold all_ops; simpl.
  - destruct acked as [|a acked]; [constructor|].
    destruct acked as [|b acked]; simpl; intros Heq.
    + injection Heq as <- _. by repeat constructor.
    + injection Heq as _ _ Heq. by destruct acked.
  - destruct acked as [|a acked]; [constructor|].
    simpl. intros Heq. injection Heq as _ Heq. by destruct acked.
Qed.

Lemma chunk_tasks_not_seal (ts : list Task) :
  Forall (λ t, is_seal_task t = false) ts →
  Forall (λ op, is_seal op = false) (flat_map all_ops ts).
Proof.
  induction 1 as [|t ts Ht _ IH]; simpl; [constructor|].
  apply Forall_app. split; [|done].
  destruct t; [|discriminate]. by repeat constructor.
Qed.

(** *** Completion order *)

Lemma tasks_done_TaskDone (ts : list Task) :
  tasks_done (map TaskDone ts) = ts.
Proof. induction ts as [|t ts IH]; [done|]. simpl. by rewrite IH. Qed.

Lemma chunk_task_not_seal (cs : list value) :
  Forall (λ t, is_seal_task t = false) (map chunk_task cs).
Proof. induction cs; by constructor. Qed.

(** The sealing task is the last one pushed: once it has completed,
    everything has. *)
Lemma seal_done_all (done waiting : list Task) (cs : list value) :
  done ++ waiting = map chunk_task cs ++ [SealChunks requestId cacheKey] →
  Exists (λ t, is_seal_task t = true) done →
  waiting = [] ∧ done = map chunk_task cs ++ [SealChunks requestId cacheKey].
Proof.
  intros Heq Hseal.
  destruct waiting as [|t waiting _] using rev_ind.
  - by rewrite app_nil_r in Heq.
  - exfalso. rewrite app_assoc in Heq.
    apply app_inj_tail in Heq as [Heq _].
    pose proof (chunk_task_not_seal cs) as Hcs.
    rewrite <- Heq in Hcs. apply Forall_app in Hcs as [Hcs _].
    apply Exists_exists in Hseal as (t' & Hin & Ht').
    rewrite Forall_forall in Hcs. specialize (Hcs t' Hin). congruence.
Qed.

End CaptureSession.

(* ===================================================================== *)
(** ** Capture: forwarding, scheduling, ordering and sealing *)
(* ===================================================================== *)

Section Capture.

Context {Client Ret : Type}.
Variable options : @Options Client Ret.
Variable defaultGetCacheKey : Request → string.
Variable chunkId : string → nat → string.
Variables nativeWrite nativeEnd
  : list value → Client → Settled Ret * Client.

Implicit Types (req : Request) (res : @Response Client Ret)
  (w : @World Client).

(** The hooks and the listener that [handleCacheMiss] installs, by what
    they do to the queue before the original method runs. *)
Lemma onWrite_queue_gains requestId cacheKey (chunk : value) w :
  ∃ wc,
    onWrite requestId cacheKey chunk w = (Fulfilled (), wc)
    ∧ queue_gains (if is_defined chunk
                   then [CacheChunk requestId chunk cacheKey] else [])
        w wc.
Proof.
  rewrite onWrite_result. eexists. split; [reflexivity|].
  unfold queue_gains. destruct (is_defined chunk); simpl.
  - by rewrite queued_push_run.
  - by rewrite app_nil_r.
Qed.

Lemma onFinish_queue_gains requestId cacheKey w :
  ∃ wf,
    onFinish requestId cacheKey w = (Fulfilled (), wf)
    ∧ queue_gains [SealChunks requestId cacheKey] w wf.
Proof.
  rewrite onFinish_result. eexists. split; [reflexivity|].
  unfold queue_gains. simpl. by rewrite queued_push_run.
Qed.

Lemma patched_intercepts requestId cacheKey res :
  intercepts requestId cacheKey res
    (patched res (onFinish requestId cacheKey) (onWrite requestId cacheKey)).
Proof.
  split.
  - intros args w.
    destruct (onWrite_queue_gains requestId cacheKey (arg0 args) w)
      as (wc & Hrun & Hgain).
    exists wc. split; [exact Hgain|].
    unfold patched. simpl. unfold mbind, M_bind. by rewrite Hrun.
  - exists (onFinish requestId cacheKey). split; [reflexivity|].
    intros w. apply onFinish_queue_gains.
Qed.


(** A failing store operation changes the queue and the console, never
    the client. *)
Lemma nack_client message w :
  client (nack options message w) = client w.
Proof.
  unfold nack. destruct (active (chunkQueue w)); [|done]. simpl.
  by destruct (console_log_frame options message w) as (_ & _ & -> & _).
Qed.

Lemma ack_client w : client (ack chunkId w) = client w.
Proof.
  unfold ack.
  destruct (active (chunkQueue w)) as [[[t op] [|op' ops]]|]; done.
Qed.

Lemma capturing_client requestId cacheKey args w :
  let res' := capturing nativeWrite nativeEnd requestId cacheKey in
  fst (write res' args w) = fst (nativeWrite args (client w))
  ∧ client (snd (write res' args w)) = snd (nativeWrite args (client w))
  ∧ fst (end_ res' args w) = fst (nativeEnd args (client w))
  ∧ client (snd (end_ res' args w)) = snd (nativeEnd args (client w)).
Proof.
  unfold capturing, patched, nativeResponse, native. simpl.
  unfold mbind, M_bind. rewrite onWrite_result.
  destruct (is_defined (arg0 args)); simpl;
    destruct (nativeWrite args (client w)), (nativeEnd args (client w));
    done.
Qed.

Lemma live_step_client requestId cacheKey w (s : LiveStep) :
  client (live_step options chunkId
            (capturing nativeWrite nativeEnd requestId cacheKey) w s)
  = deliver nativeWrite nativeEnd (client w) s.
Proof.
  destruct s as [[args|args| |]|message]; simpl.
  - apply capturing_client.
  - apply capturing_client.
  - reflexivity.
  - apply ack_client.
  - apply nack_client.
Qed.

(** C6.  The [write] and [end] that [handleCacheMiss] installs call the
    originals with the arguments they were given and return what the
    originals return.  The capture hook itself returns normally and leaves
    the client alone: all it does is put a task on the queue.  So when the
    originals are the native methods, the result of every call and the
    client connection are what the native method alone would have
    produced, whatever the heap and the queue hold.  A store operation
    that is acknowledged and one that fails (the failure is logged, the
    task abandoned, the drain goes on) both leave the client untouched.
    Hence over a whole session, for every interleaving of handler calls
    with store acknowledgements and store failures, the client is handed
    exactly what the native methods hand it for the handler's calls. *)
Theorem capture_forwards_unchanged requestId cacheKey req res w0 :
  let onFinish := onFinish requestId cacheKey in
  let onWrite := onWrite requestId cacheKey in
  (∃ w1, handleCacheMiss options req res onFinish onWrite cacheKey w0
         = (Fulfilled (patched res onFinish onWrite), w1))
  ∧ (∀ args w,
       write (patched res onFinish onWrite) args w
       = write res args (exec (onWrite (arg0 args)) w)
       ∧ end_ (patched res onFinish onWrite) args w
         = end_ res args (exec (onWrite (arg0 args)) w))
  ∧ (∀ args w,
       let res' := capturing nativeWrite nativeEnd requestId cacheKey in
       fst (write res' args w) = fst (nativeWrite args (client w))
       ∧ client (snd (write res' args w))
         = snd (nativeWrite args (client w))
       ∧ fst (end_ res' args w) = fst (nativeEnd args (client w))
       ∧ client (snd (end_ res' args w))
         = snd (nativeEnd args (client w)))
  ∧ (∀ w, client (ack chunkId w) = client w)
  ∧ (∀ chunk w, ∃ w',
       onWrite chunk w = (Fulfilled (), w') ∧ client w' = client w)
  ∧ (∀ message w, client (nack options message w) = client w)
  ∧ (∀ (schedule : list LiveStep) w,
       client (live_run options chunkId
                 (capturing nativeWrite nativeEnd requestId cacheKey)
                 w schedule)
       = delivered nativeWrite nativeEnd (client w) schedule).
Proof.
  intros onFinish' onWrite'.
  split; [|split; [|split; [|split; [|split; [|split]]]]].
  - destruct (handleCacheMiss_result options req res onFinish' onWrite'
                cacheKey w0) as (w1 & Hrun & _).
    by exists w1.
  - intros args w. unfold patched, exec, onWrite'. simpl.
    unfold mbind, M_bind. by rewrite onWrite_result.
  - intros args w. apply capturing_client.
  - apply ack_client.
  - intros chunk w.
    destruct (onWrite_queue_gains requestId cacheKey chunk w)
      as (w' & Hrun & _ & Hc & _).
    by exists w'.
  - apply nack_client.
  - intros schedule. unfold live_run, delivered.
    induction schedule as [|s schedule IH]; intros w; [done|].
    simpl. by rewrite IH, live_step_client.
Qed.

(** C7, as the code has it.  [onWrite] schedules a task for a chunk
    exactly when the chunk is not [undefined]: the queue gains the task
    [CacheChunk] for that chunk, or stays as it is.  An empty string and
    an empty buffer are scheduled, and on a fresh queue such a chunk is in
    the chunk store after its two store operations have been
    acknowledged, while [undefined] leaves queue and stores as they
    were. *)
Theorem onWrite_schedules_iff_defined requestId cacheKey (chunk : value) w :
  queued (chunkQueue (exec (onWrite requestId cacheKey chunk) w))
  = queued (chunkQueue w)
    ++ (if is_defined chunk
        then [CacheChunk requestId chunk cacheKey] else [])
  ∧ (is_defined chunk = true ↔ chunk ≠ JUndefined)
  ∧ exec (onWrite requestId cacheKey JUndefined) w = w
  ∧ (let persisted (empty : value) :=
       let w1 := exec (onWrite requestId cacheKey empty)
                   (set_chunkQueue (λ _, newQueue) w) in
       let n := length (default [] (aggressiveCache (heap w))) in
       chunkBucket (heap (ack chunkId (ack chunkId w1)))
       !! chunkId requestId n
       = Some empty in
     persisted (JString "") ∧ persisted (JBuffer [])).
Proof.
  unfold exec. rewrite !onWrite_result. split; [|split; [|split; [|split]]].
  - destruct (is_defined chunk); simpl.
    + apply queued_push_run.
    + by rewrite app_nil_r.
  - destruct chunk; simpl; split; congruence.
  - reflexivity.
  - simpl. unfold ack. simpl. by rewrite lookup_insert_eq.
  - simpl. unfold ack. simpl. by rewrite lookup_insert_eq.
Qed.

(** C2.  A GET request misses, the handler makes its calls to [write]
    and [end] and the response finishes, with store acknowledgements
    arriving at any points in between or afterwards.  Whenever the queue
    is idle after that, the record under the cache key is sealed, its
    chunk list has one identity per chunk written, the identities
    resolve, in order, to the chunks in the order they were written, and
    the tasks have completed in push order.  The queue does become idle:
    some number of further acknowledgements drains it.  Of the chunk
    identities it is assumed that those of this session are distinct. *)
Theorem chunks_stored_in_write_order
    requestId req w0 (schedule calls : list Step) :
  let res := nativeResponse nativeWrite nativeEnd in
  let cacheKey := cacheKeyOf options defaultGetCacheKey req res in
  NoDup (chunkId requestId <$> seq 0 (length (written calls))) →
  method req = "GET" →
  ¬ replayable (heap w0) cacheKey →
  handler_calls schedule = calls ++ [Finish] →
  Forall (λ s, is_finish s = false) calls →
  ∃ res' w1,
    middleware options defaultGetCacheKey requestId req res w0
    = (Fulfilled res', w1)
    ∧ (let w := run chunkId res' w1 schedule in
       idle (chunkQueue w) →
       ∃ ids,
         responseBucket (heap w) !! cacheKey
         = Some {| isSealed := true; chunks := ids |}
         ∧ length ids = length (written calls)
         ∧ resolve (chunkBucket (heap w)) ids = Some (written calls)
         ∧ tasks_done (drop (length (trace w1)) (trace w))
           = map (λ c, CacheChunk requestId c cacheKey) (written calls)
             ++ [SealChunks requestId cacheKey])
    ∧ ∃ n, idle (chunkQueue
                   (run chunkId res' w1 (schedule ++ replicate n Ack))).
Proof.
  intros res cacheKey Hinj Hget Hmiss Hcalls Hfin.
  destruct (middleware_get options defaultGetCacheKey requestId req res w0
              Hget)
    as (res' & w1 & events & Hrun & _ & _ & _ & Hagg & Hq & _ & _ & _ & Hm).
  destruct (Hm Hmiss) as [_ ->]. fold cacheKey.
  exists (capturing nativeWrite nativeEnd requestId cacheKey), w1.
  split; [exact Hrun|].
  pose proof (session_inv_run chunkId nativeWrite nativeEnd requestId
                cacheKey _ _ _ _ schedule
                (session_inv_start chunkId w1 Hq)) as Hinv.
  simpl in Hinv.
  rewrite (pushed_complete requestId cacheKey schedule calls Hcalls Hfin)
    in Hinv.
  split.
  - intros w Hidle.
    destruct (session_inv_drained chunkId _ _ _ _ Hinv Hidle)
      as [Htr Hheap].
    exists (chunkId requestId <$> seq 0 (length (written calls))).
    fold w in Htr, Hheap. rewrite Hheap, Htr.
    destruct (sealed_record chunkId requestId cacheKey (written calls)
                (heap w1) Hagg) as [Hrec _].
    split; [exact Hrec|].
    split; [by rewrite length_fmap, length_seq|].
    split; [by apply sealed_resolve|].
    by rewrite drop_app_length, tasks_done_TaskDone.
  - eexists. rewrite run_app.
    by eapply drains_after.
Qed.

(** C3.  In a capture session the sealing task is pushed after the chunk
    tasks of the calls that precede the finish event, and tasks complete
    in push order.  So at any moment: if the sealing task has completed,
    every one of those chunk tasks completed before it; and a sealed
    record under the cache key is either the one that was there before
    the request, or lists one identity for every chunk written. *)
Theorem no_premature_seal
    requestId req w0 (schedule calls fin : list Step) :
  let res := nativeResponse nativeWrite nativeEnd in
  let cacheKey := cacheKeyOf options defaultGetCacheKey req res in
  method req = "GET" →
  ¬ replayable (heap w0) cacheKey →
  handler_calls schedule = calls ++ fin →
  Forall (λ s, is_finish s = false) calls →
  fin = [] ∨ fin = [Finish] →
  ∃ res' w1,
    middleware options defaultGetCacheKey requestId req res w0
    = (Fulfilled res', w1)
    ∧ let w := run chunkId res' w1 schedule in
      let done := tasks_done (drop (length (trace w1)) (trace w)) in
      let chunk_tasks :=
        map (λ c, CacheChunk requestId c cacheKey) (written calls) in
      done ++ queued (chunkQueue w)
      = chunk_tasks ++ pushed requestId cacheKey fin
      ∧ (SealChunks requestId cacheKey ∈ done →
         done = chunk_tasks ++ [SealChunks requestId cacheKey])
      ∧ ∀ cr, responseBucket (heap w) !! cacheKey = Some cr →
              isSealed cr = true →
              responseBucket (heap w0) !! cacheKey = Some cr
              ∨ (SealChunks requestId cacheKey ∈ done
                 ∧ chunks cr
                   = (chunkId requestId
                        <$> seq 0 (length (written calls)))).
Proof.
  intros res cacheKey Hget Hmiss Hcalls Hfin Hshape.
  destruct (middleware_get options defaultGetCacheKey requestId req res w0
              Hget)
    as (res' & w1 & events & Hrun & _ & Hrb & _ & Hagg & Hq & _ & _ & _ & Hm).
  destruct (Hm Hmiss) as [_ ->]. fold cacheKey.
  exists (capturing nativeWrite nativeEnd requestId cacheKey), w1.
  split; [exact Hrun|].
  pose proof (session_inv_run chunkId nativeWrite nativeEnd requestId
                cacheKey _ _ _ _ schedule
                (session_inv_start chunkId w1 Hq)) as Hinv.
  simpl in Hinv.
  rewrite <- pushed_handler_calls, Hcalls, pushed_app, pushed_calls in Hinv
    by done.
  intros w done chunk_tasks. fold w in Hinv.
  destruct Hinv as (done' & acked & Htr & Hqueued & Hheap & Hact).
  assert (Hdone : done = done').
  { unfold done. by rewrite Htr, drop_app_length, tasks_done_TaskDone. }
  rewrite Hdone. clear done Hdone. fold chunk_tasks in Hqueued.
  assert (Hall : Exists (λ t, is_seal_task t = true) done' →
                 fin = [Finish] ∧ queued (chunkQueue w) = []
                 ∧ done' = chunk_tasks ++ [SealChunks requestId cacheKey]).
  { intros Hex. destruct Hshape as [->| ->].
    - exfalso. simpl in Hqueued. rewrite app_nil_r in Hqueued.
      pose proof (chunk_task_not_seal requestId cacheKey (written calls))
        as Hcs.
      fold chunk_tasks in Hcs. rewrite <- Hqueued in Hcs.
      apply Forall_app in Hcs as [Hcs _].
      apply Exists_exists in Hex as (t & Hin & Ht).
      rewrite Forall_forall in Hcs. specialize (Hcs t Hin). congruence.
    - split; [done|]. by eapply seal_done_all. }
  split; [exact Hqueued|]. split.
  - intros Hin. apply Hall. apply Exists_exists. by eexists.
  - intros cr Hcr Hsealed.
    destruct (decide (Forall (λ t, is_seal_task t = false) done'))
      as [Hno|Hyes].
    + left. rewrite <- Hrb. rewrite Hheap in Hcr.
      eapply unsealed_ops_responseBucket; [|exact Hcr|exact Hsealed].
      apply Forall_app. split; [by apply chunk_tasks_not_seal|].
      destruct (active (chunkQueue w)) as [[[t op] ops]|].
      * by eapply acked_not_seal.
      * destruct Hact as [-> _]. constructor.
    + right. apply not_Forall_Exists in Hyes; [|apply _].
      assert (Hex : Exists (λ t, is_seal_task t = true) done').
      { eapply Exists_impl; [exact Hyes|]. simpl. intros t Ht.
        by destruct (is_seal_task t). }
      destruct (Hall Hex) as (_ & Hq0 & ->).
      split; [apply elem_of_app; right; by apply list_elem_of_singleton|].
      unfold queued in Hq0.
      destruct (active (chunkQueue w)) as [[[t op] ops]|]; [done|].
      destruct Hact as [-> _]. rewrite app_nil_r in Hheap.
      destruct (sealed_record chunkId requestId cacheKey (written calls)
                  (heap w1) Hagg) as [Hrec _].
      fold chunk_tasks in Hrec. rewrite <- Hheap, Hcr in Hrec.
      by injection Hrec as ->.
Qed.

End Capture.

(* ===================================================================== *)
(** ** The theorems at the concrete instance *)
(* ===================================================================== *)

Module Scenarios.

Import Sample.

Lemma stale_not_replayable : ¬ replayable staleHeap "/hello".
Proof.
  intros (cr & Hcr & _ & Hc)%replayable_dec.
  vm_compute in Hcr. injection Hcr as <-. vm_compute in Hc. discriminate.
Defined.

Lemma empty_not_replayable : ¬ replayable emptyHeap "/hello".
Proof.
  intros (cr & Hcr & _)%replayable_dec. vm_compute in Hcr. discriminate.
Defined.


(** A POST request goes straight to the handler. *)
Lemma non_get_bypasses_cache_witness :
  method post ≠ "GET"
  ∧ ∃ w',
      middleware options defaultGetCacheKey "r" post res
        (Build_World warmHeap newQueue [] [] [])
      = (Fulfilled res, w')
      ∧ heap w' = warmHeap.
Proof.
  split; [discriminate|].
  destruct (non_get_bypasses_cache options defaultGetCacheKey
              "r" post res (Build_World warmHeap newQueue [] [] []))
    as (w' & events & Hrun & Hheap & _); [discriminate|].
  by exists w'.
Defined.

Lemma non_get_reports_miss_witness :
  method post ≠ "GET"
  ∧ ∃ w',
      middleware options defaultGetCacheKey "r" post res emptyWorld
      = (Fulfilled res, w')
      ∧ trace w' = [OnCacheMiss; Next].
Proof.
  split; [discriminate|].
  apply (non_get_reports_miss options defaultGetCacheKey
           "r" post res emptyWorld).
  discriminate.
Defined.

(** Request A of the spec's scenario. *)
Lemma chunks_stored_in_write_order_witness :
  ∃ res' w1,
    middleware options defaultGetCacheKey "r" get res emptyWorld
    = (Fulfilled res', w1)
    ∧ (idle (chunkQueue (run chunkId res' w1 hello)) →
       ∃ ids,
         responseBucket (heap (run chunkId res' w1 hello)) !! "/hello"
         = Some {| isSealed := true; chunks := ids |}
         ∧ resolve (chunkBucket (heap (run chunkId res' w1 hello))) ids
           = Some [JString "He"; JString "llo"]).
Proof.
  destruct (chunks_stored_in_write_order options defaultGetCacheKey
              chunkId nativeWrite nativeEnd "r" get emptyWorld hello
              [HandlerWrite [JString "He"]; HandlerWrite [JString "llo"];
               HandlerEnd []])
    as (res' & w1 & Hrun & Hidle & _).
  - vm_compute. apply NoDup_cons. split; [|apply NoDup_singleton].
    intros H%list_elem_of_singleton. discriminate.
  - reflexivity.
  - exact empty_not_replayable.
  - reflexivity.
  - repeat constructor.
  - exists res', w1. split; [exact Hrun|].
    intros Hi. destruct (Hidle Hi) as (ids & Hrec & _ & Hres & _).
    by exists ids.
Defined.

Lemma no_premature_seal_witness :
  ∃ res' w1,
    middleware options defaultGetCacheKey "r" get res emptyWorld
    = (Fulfilled res', w1)
    ∧ ∀ cr,
        responseBucket (heap (run chunkId res' w1 hello)) !! "/hello"
        = Some cr →
        isSealed cr = true →
        responseBucket emptyHeap !! "/hello" = Some cr
        ∨ chunks cr = ["r-0"; "r-1"].
Proof.
  destruct (no_premature_seal options defaultGetCacheKey
              chunkId nativeWrite nativeEnd "r" get emptyWorld hello
              [HandlerWrite [JString "He"]; HandlerWrite [JString "llo"];
               HandlerEnd []] [Finish])
    as (res' & w1 & Hrun & _ & _ & Hsealed).
  - reflexivity.
  - exact empty_not_replayable.
  - reflexivity.
  - repeat constructor.
  - by right.
  - exists res', w1. split; [exact Hrun|].
    intros cr Hcr Hs. destruct (Hsealed cr Hcr Hs) as [H|[_ H]]; [by left|].
    right. exact H.
Defined.

(** C7, as stated, fails for [null]: [null !== undefined] holds, so the
    guard of [onWrite] lets a [null] chunk through and a task for it is
    put on the queue. *)
Lemma onWrite_null_is_scheduled :
  queued (chunkQueue (exec (onWrite "r" "/hello" JNull) emptyWorld))
  = [CacheChunk "r" JNull "/hello"]
  ∧ queued (chunkQueue (exec (onWrite "r" "/hello" JNull) emptyWorld))
    ≠ queued (chunkQueue emptyWorld).
Proof. split; [reflexivity|discriminate]. Qed.

Example onWrite_undefined_not_scheduled :
  queued (chunkQueue (exec (onWrite "r" "/hello" JUndefined) emptyWorld))
  = [].
Proof. reflexivity. Qed.

Example onWrite_empty_string_scheduled :
  queued (chunkQueue (exec (onWrite "r" "/hello" (JString "")) emptyWorld))
  = [CacheChunk "r" (JString "") "/hello"].
Proof. reflexivity. Qed.

(** The spec's scenario, run: the record is sealed with two chunk
    references and the client received exactly the handler's calls. *)
Example hello_run :
  let w := run chunkId captured afterMiss hello in
  responseBucket (heap w) !! "/hello"
  = Some {| isSealed := true; chunks := ["r-0"; "r-1"] |}
  ∧ resolve (chunkBucket (heap w)) ["r-0"; "r-1"]
    = Some [JString "He"; JString "llo"]
  ∧ client w = [[JString "He"]; [JString "llo"]; []]
  ∧ tasks_done (trace w)
    = [CacheChunk "r" (JString "He") "/hello";
       CacheChunk "r" (JString "llo") "/hello";
       SealChunks "r" "/hello"].
Proof. by vm_compute. Qed.

(** Request B of the scenario: the stored record is replayed and the
    handler is not invoked. *)
Example warm_hit :
  trace (snd (middleware options defaultGetCacheKey "r2" get res
                (Build_World warmHeap newQueue [] [] [])))
  = [ResponseBucketGet "/hello"; ChunkBucketHas ["a-0"; "a-1"];
     OnCacheHit;
     ReturnCachedResponse {| isSealed := true; chunks := ["a-0"; "a-1"] |}].
Proof. by vm_compute. Qed.

Example unsealed_miss :
  trace (snd (middleware options defaultGetCacheKey "r2" get res
                (Build_World unsealedHeap newQueue [] [] [])))
  = [ResponseBucketGet "/hello"; OnCacheMiss; Next].
Proof. by vm_compute. Qed.

Example purge_rejected :
  fst (purge "users" emptyWorld)
  = Rejected "purge for cache tag users not implemented - API could still change - do not use".
Proof. reflexivity. Qed.

End Scenarios.

(* ===================================================================== *)
(** ** One request, from outside *)
(* ===================================================================== *)

Section RequestBehaviour.

Context {Client Ret : Type}.
Variable options : @Options Client Ret.
Variable defaultGetCacheKey : Request → string.

Implicit Types (req : Request) (res : @Response Client Ret)
  (w : @World Client).

Lemma console_log_console msg w :
  console (console_log options msg w)
  = console w ++ (if debug options then [msg] else []).
Proof.
  unfold console_log. destruct (debug options); simpl; [done|].
  by rewrite app_nil_r.
Qed.

Lemma checkAndHandleCacheHit_exact stored req res cacheKey w :
  ∃ w',
    checkAndHandleCacheHit options stored req res cacheKey w
    = (Fulfilled (hit_of (chunkBucket (heap w)) stored), w')
    ∧ heap w' = heap w ∧ chunkQueue w' = chunkQueue w
    ∧ client w' = client w
    ∧ trace w' = trace w ++ check_events (chunkBucket (heap w)) stored
    ∧ console w'
      = console w
        ++ (if debug options
            then check_log cacheKey (chunkBucket (heap w)) stored else []).
Proof.
  unfold checkAndHandleCacheHit, chunkBucket_has, returnCachedResponse, log,
    emit, modify, gets, mbind, M_bind, mret, M_ret,
    check_events, probe_events, check_log, hit_of.
  destruct stored as [cr|]; [destruct (isSealed cr) eqn:Hs|]; simpl.
  - destruct (bucket_has (chunkBucket (heap w)) (chunks cr)) eqn:Hc; simpl.
    + eexists. split; [reflexivity|]. simpl.
      destruct (console_log_frame options ("HIT: " +:+ cacheKey)
                  {| heap := heap w; chunkQueue := chunkQueue w;
                     client := client w; console := console w;
                     trace := trace w ++ [ChunkBucketHas (chunks cr)] |})
        as (-> & -> & -> & ->).
      rewrite console_log_console. simpl.
      do 3 (split; [reflexivity|]). split; [by rewrite <- !app_assoc|].
      by destruct (debug options).
    + eexists. split; [reflexivity|].
      destruct (console_log_frame options "chunk missing"
                  {| heap := heap w; chunkQueue := chunkQueue w;
                     client := client w; console := console w;
                     trace := trace w ++ [ChunkBucketHas (chunks cr)] |})
        as (-> & -> & -> & ->).
      rewrite console_log_console. simpl.
      do 3 (split; [reflexivity|]). split; [by rewrite ?app_nil_r|].
      by destruct (debug options).
  - exists w. rewrite !app_nil_r. do 5 (split; [reflexivity|]).
    destruct (debug options); by rewrite app_nil_r.
  - exists w. rewrite !app_nil_r. do 5 (split; [reflexivity|]).
    destruct (debug options); by rewrite app_nil_r.
Qed.

Lemma handleCacheMiss_exact req res onFinish onWrite cacheKey w :
  ∃ w',
    handleCacheMiss options req res onFinish onWrite cacheKey w
    = (Fulfilled (patched res onFinish onWrite), w')
    ∧ responseBucket (heap w') = responseBucket (heap w)
    ∧ chunkBucket (heap w') = chunkBucket (heap w)
    ∧ aggressiveCache (heap w') = aggressiveCache (heap w)
    ∧ cacheKeyBucket (heap w')
      = tagged options req res cacheKey (cacheKeyBucket (heap w))
    ∧ chunkQueue w' = chunkQueue w
    ∧ client w' = client w
    ∧ trace w' = trace w ++ OnCacheMiss :: tag_events options req res cacheKey
    ∧ console w'
      = console w
        ++ (if debug options
            then ["MISS - key not found: " +:+ cacheKey] else []).
Proof.
  unfold handleCacheMiss, updateCacheKeyBucketOptional, tag_events, tagged,
    cacheKeyBucket_set, log, console_log, emit, modify, set_heap,
    mbind, M_bind, mret, M_ret.
  destruct (getCacheTag options) as [f|]; [destruct (f req res)|];
    destruct (debug options); simpl.
  all: eexists; split; [reflexivity|]; simpl.
  all: do 6 (split; [reflexivity|]).
  all: by rewrite <- ?app_assoc, ?app_nil_r.
Qed.

(** The middleware against the description of section "One request,
    observed": events, log lines, buckets and the response object. *)
Lemma middleware_behaviour requestId req res w :
  let cacheKey := cacheKeyOf options defaultGetCacheKey req res in
  let bypass := bool_decide (method req ≠ "GET") in
  let hit := hit_of (chunkBucket (heap w))
               (responseBucket (heap w) !! cacheKey) in
  ∃ w',
    middleware options defaultGetCacheKey requestId req res w
    = (Fulfilled (if bypass || hit then res
                  else patched res (onFinish requestId cacheKey)
                                   (onWrite requestId cacheKey)), w')
    ∧ trace w' = trace w ++ request_events options req res cacheKey (heap w)
    ∧ console w'
      = console w
        ++ (if debug options then request_log req cacheKey (heap w) else [])
    ∧ responseBucket (heap w') = responseBucket (heap w)
    ∧ chunkBucket (heap w') = chunkBucket (heap w)
    ∧ cacheKeyBucket (heap w')
      = (if bypass || hit then cacheKeyBucket (heap w)
         else tagged options req res cacheKey (cacheKeyBucket (heap w)))
    ∧ client w' = client w.
Proof.
  intros cacheKey bypass hit. unfold request_events, request_log.
  fold bypass. destruct bypass eqn:Hb.
  - apply bool_decide_eq_true in Hb.
    rewrite (middleware_non_get options defaultGetCacheKey) by done.
    eexists. split; [reflexivity|]. simpl.
    destruct (console_log_frame options "MISS - not a GET request" w)
      as (-> & _ & -> & ->).
    rewrite console_log_console, <- app_assoc. done.
  - unfold middleware, handleNonGetRequestsAsCacheMiss.
    fold (bool_decide (method req ≠ "GET")). unfold bypass in Hb. rewrite Hb.
    unfold reset_aggressiveCache, getChunkFunctions, responseBucket_get,
      next, emit, modify, gets, set_heap, set_chunkQueue.
    unfold mbind, M_bind, mret, M_ret. simpl.
    change (getCacheKey options req res (defaultGetCacheKey req)) with cacheKey.
    match goal with
    | |- context [checkAndHandleCacheHit options ?c req res cacheKey ?w1] =>
        destruct (checkAndHandleCacheHit_exact c req res cacheKey w1)
          as (w2 & -> & Hh & Hq & Hc & Ht & Hl)
    end.
    simpl in *. fold hit. fold hit in Ht, Hl. destruct hit.
    + exists w2. rewrite Hh, Hc, Ht, Hl. simpl.
      split; [reflexivity|]. rewrite <- !app_assoc, !app_nil_r. done.
    + destruct (handleCacheMiss_exact req res (onFinish requestId cacheKey)
                  (onWrite requestId cacheKey) cacheKey w2)
        as (w3 & -> & Hr3 & Hc3 & _ & Hk3 & _ & Hcl3 & Ht3 & Hl3).
      eexists. split; [reflexivity|]. simpl.
      rewrite Hr3, Hc3, Hk3, Hcl3, Ht3, Hl3, Hh, Hc, Ht, Hl. simpl.
      split; [by rewrite <- !app_assoc|].
      split; [|done].
      rewrite <- !app_assoc. by destruct (debug options).
Qed.

Ltac event_absurd H :=
  repeat (apply elem_of_cons in H as [H|H]; [discriminate H|]);
  by apply elem_of_nil in H.

Ltac event_here :=
  repeat first [apply list_elem_of_here | apply list_elem_of_further].

Lemma replayable_hit_of (h : Heap) (cacheKey : string) :
  replayable h cacheKey
  ↔ hit_of (chunkBucket h) (responseBucket h !! cacheKey) = true.
Proof.
  rewrite replayable_dec. unfold hit_of.
  destruct (responseBucket h !! cacheKey) as [cr|].
  - rewrite andb_true_iff. split.
    + by intros (cr' & [= <-] & ? & ?).
    + intros [? ?]. by exists cr.
  - split; [by intros (cr & [=] & _)|discriminate].
Qed.

(** Reports in the events of a request: one, a hit report exactly when
    the record is replayed, a miss report exactly when [next] is called. *)
Lemma request_events_reports req res cacheKey (h : Heap) :
  let events := request_events options req res cacheKey h in
  length (List.filter is_report events) = 1
  ∧ (OnCacheHit ∈ events ↔ served_from_cache events)
  ∧ (OnCacheMiss ∈ events ↔ handler_invoked events).
Proof.
  unfold request_events, check_events, probe_events, hit_of, tag_events,
    served_from_cache, handler_invoked.
  destruct (bool_decide (method req ≠ "GET")); simpl.
  { split; [done|]. split; split; intros H; try event_here.
    - event_absurd H.
    - destruct H as [cr H]. event_absurd H. }
  destruct (responseBucket h !! cacheKey) as [cr|];
    [destruct (isSealed cr);
       [destruct (bucket_has (chunkBucket h) (chunks cr))|]|];
    destruct (getCacheTag options) as [f|];
    try destruct (f req res); simpl.
  all: split; [done|].
  all: split; split; intros H; try event_here.
  all: try (exists cr; event_here).
  all: try (destruct H as [cr' H]); event_absurd H.
Qed.

(** X1.  Whatever the method and whatever the stores hold, a request is
    reported exactly once: the middleware calls one of [onCacheHit] and
    [onCacheMiss], once.  It reports a hit exactly when it replays a stored
    response, and a miss exactly when it passes the request on. *)
Theorem every_request_reports_once requestId req res w :
  ∃ res' w' events,
    middleware options defaultGetCacheKey requestId req res w
    = (Fulfilled res', w')
    ∧ trace w' = trace w ++ events
    ∧ length (List.filter is_report events) = 1
    ∧ (OnCacheHit ∈ events ↔ served_from_cache events)
    ∧ (OnCacheMiss ∈ events ↔ handler_invoked events).
Proof.
  destruct (middleware_behaviour requestId req res w)
    as (w' & Hrun & Ht & _).
  eexists _, w', _. split; [exact Hrun|]. split; [exact Ht|].
  apply request_events_reports.
Qed.

Lemma middleware_on_hit requestId req res w :
  let cacheKey := cacheKeyOf options defaultGetCacheKey req res in
  method req = "GET" →
  replayable (heap w) cacheKey →
  ∃ cr w',
    responseBucket (heap w) !! cacheKey = Some cr
    ∧ middleware options defaultGetCacheKey requestId req res w
      = (Fulfilled res, w')
    ∧ trace w' = trace w ++ [ResponseBucketGet cacheKey;
                             ChunkBucketHas (chunks cr);
                             OnCacheHit; ReturnCachedResponse cr]
    ∧ responseBucket (heap w') = responseBucket (heap w)
    ∧ chunkBucket (heap w') = chunkBucket (heap w)
    ∧ cacheKeyBucket (heap w') = cacheKeyBucket (heap w).
Proof.
  intros cacheKey Hget Hrep.
  destruct (middleware_behaviour requestId req res w)
    as (w' & Hrun & Ht & _ & Hr & Hc & Hk & _).
  fold cacheKey in Hrun, Ht, Hk.
  pose proof (proj1 (replayable_hit_of _ _) Hrep) as Hhit.
  rewrite Hhit, orb_true_r in Hrun, Hk.
  unfold request_events, check_events, probe_events in Ht.
  rewrite bool_decide_eq_false_2, Hhit in Ht by (by intros []).
  unfold hit_of in Hhit.
  destruct (responseBucket (heap w) !! cacheKey) as [cr|]; [|done].
  apply andb_true_iff in Hhit as [Hs _]. rewrite Hs in Ht.
  by exists cr, w'.
Qed.

(** X2.  On a hit the middleware reads the record, asks the chunk store
    about exactly the chunks the record lists, calls [onCacheHit] and then
    replays that very record.  It returns the response object untouched
    and leaves all three buckets as they were. *)
Theorem hit_replays_stored_record requestId req res w :
  let cacheKey := cacheKeyOf options defaultGetCacheKey req res in
  method req = "GET" →
  replayable (heap w) cacheKey →
  ∃ cr w',
    responseBucket (heap w) !! cacheKey = Some cr
    ∧ middleware options defaultGetCacheKey requestId req res w
      = (Fulfilled res, w')
    ∧ trace w' = trace w ++ [ResponseBucketGet cacheKey;
                             ChunkBucketHas (chunks cr);
                             OnCacheHit; ReturnCachedResponse cr]
    ∧ responseBucket (heap w') = responseBucket (heap w)
    ∧ chunkBucket (heap w') = chunkBucket (heap w)
    ∧ cacheKeyBucket (heap w') = cacheKeyBucket (heap w).
Proof. apply middleware_on_hit. Qed.

(** X3.  On a GET miss the order is: the record is read; the chunk store
    is asked only if the record is there and sealed; [onCacheMiss] is
    called; the tag index is updated if a tag function gives a tag; and
    only then is the handler invoked, with the capturing response, whose
    [write] and [end] queue the task for their first argument before the
    original call and whose added finish listener queues the sealing
    task. *)
Theorem miss_event_order requestId req res w :
  let cacheKey := cacheKeyOf options defaultGetCacheKey req res in
  method req = "GET" →
  ¬ replayable (heap w) cacheKey →
  ∃ w',
    middleware options defaultGetCacheKey requestId req res w
    = (Fulfilled (patched res (onFinish requestId cacheKey)
                              (onWrite requestId cacheKey)), w')
    ∧ trace w'
      = trace w
        ++ ResponseBucketGet cacheKey
           :: match responseBucket (heap w) !! cacheKey with
              | Some cr =>
                  if isSealed cr then [ChunkBucketHas (chunks cr)] else []
              | None => []
              end
           ++ OnCacheMiss
              :: match getCacheTag options with
                 | Some getCacheTag =>
                     match getCacheTag req res with
                     | Some cacheTag => [CacheKeyBucketSet cacheTag cacheKey]
                     | None => []
                     end
                 | None => []
                 end
              ++ [Next]
    ∧ intercepts requestId cacheKey res
        (patched res (onFinish requestId cacheKey)
                     (onWrite requestId cacheKey)).
Proof.
  intros cacheKey Hget Hrep.
  destruct (middleware_behaviour requestId req res w)
    as (w' & Hrun & Ht & _).
  fold cacheKey in Hrun, Ht.
  assert (Hhit : hit_of (chunkBucket (heap w))
                   (responseBucket (heap w) !! cacheKey) = false).
  { apply not_true_is_false. by rewrite <- replayable_hit_of. }
  rewrite Hhit in Hrun.
  rewrite bool_decide_eq_false_2 in Hrun by (by intros []).
  unfold request_events, check_events in Ht.
  rewrite bool_decide_eq_false_2, Hhit in Ht by (by intros []).
  exists w'. split; [exact Hrun|]. split; [|apply patched_intercepts].
  rewrite Ht. unfold probe_events.
  by destruct (responseBucket (heap w) !! cacheKey); rewrite ?app_nil_r.
Qed.

Lemma check_events_no_set chunkStore stored cacheTag key :
  CacheKeyBucketSet cacheTag key ∉ check_events chunkStore stored.
Proof.
  unfold check_events, probe_events, hit_of.
  destruct stored as [cr|]; [destruct (isSealed cr);
    [destruct (bucket_has chunkStore (chunks cr))|]|]; simpl;
    intros H; event_absurd H.
Qed.

Lemma tag_events_spec req res cacheKey cacheTag key :
  CacheKeyBucketSet cacheTag key ∈ tag_events options req res cacheKey
  ↔ key = cacheKey
    ∧ ∃ tagOf, getCacheTag options = Some tagOf
               ∧ tagOf req res = Some cacheTag.
Proof.
  unfold tag_events.
  destruct (getCacheTag options) as [f|]; [destruct (f req res) eqn:Hf|].
  - rewrite list_elem_of_singleton. split.
    + intros [= -> ->]. split; [done|]. by exists f.
    + intros (-> & g & [= <-] & Hg). congruence.
  - rewrite elem_of_nil. split; [done|].
    intros (_ & g & [= <-] & Hg). congruence.
  - rewrite elem_of_nil. split; [done|]. by intros (_ & g & [=] & _).
Qed.

(** X4.  The middleware itself writes to no response or chunk bucket,
    whatever the request (so a stale record stays until a capture
    replaces it), and it calls [cacheKeyBucket.set] in one case only: on a
    GET miss for which the tag function exists and gives a tag, with that
    tag and the request's cache key. *)
Theorem tag_index_set_on_miss_only requestId req res w :
  let cacheKey := cacheKeyOf options defaultGetCacheKey req res in
  ∃ res' w' events,
    middleware options defaultGetCacheKey requestId req res w
    = (Fulfilled res', w')
    ∧ trace w' = trace w ++ events
    ∧ responseBucket (heap w') = responseBucket (heap w)
    ∧ chunkBucket (heap w') = chunkBucket (heap w)
    ∧ (∀ cacheTag key,
         CacheKeyBucketSet cacheTag key ∈ events
         ↔ method req = "GET"
           ∧ ¬ replayable (heap w) cacheKey
           ∧ key = cacheKey
           ∧ ∃ tagOf,
               getCacheTag options = Some tagOf
               ∧ tagOf req res = Some cacheTag).
Proof.
  intros cacheKey.
  destruct (middleware_behaviour requestId req res w)
    as (w' & Hrun & Ht & _ & Hr & Hc & _).
  fold cacheKey in Hrun, Ht.
  eexists _, w', _. split; [exact Hrun|]. split; [exact Ht|].
  do 2 (split; [done|]).
  intros cacheTag key.
  pose proof (replayable_hit_of (heap w) cacheKey) as Hrep.
  unfold request_events.
  destruct (bool_decide (method req ≠ "GET")) eqn:Hb.
  { apply bool_decide_eq_true in Hb.
    split; [intros H; event_absurd H|]. by intros [? _]. }
  apply bool_decide_eq_false in Hb. apply dec_stable in Hb.
  rewrite elem_of_cons, elem_of_app.
  destruct (hit_of (chunkBucket (heap w))
              (responseBucket (heap w) !! cacheKey)).
  - rewrite elem_of_nil. split.
    + intros [[=]|[H|[]]]. by apply check_events_no_set in H.
    + intros (_ & Hn & _). exfalso. apply Hn. by apply Hrep.
  - rewrite elem_of_cons, elem_of_app, tag_events_spec. split.
    + intros [[=]|[H|[[=]|[H|H]]]].
      * by apply check_events_no_set in H.
      * split; [done|]. split; [|done]. rewrite Hrep. discriminate.
      * event_absurd H.
    + intros (_ & _ & H). right. right. right. by left.
Qed.

(** X5.  Without [debug] the middleware prints nothing.  With [debug] it
    prints, per request, exactly: the bypass line for a method other than
    GET; the HIT line with the key on a hit; the MISS line with the key on
    a miss, preceded by "chunk missing" when the record was sealed but a
    chunk of it was gone. *)
Theorem log_lines requestId req res w :
  let cacheKey := cacheKeyOf options defaultGetCacheKey req res in
  ∃ res' w',
    middleware options defaultGetCacheKey requestId req res w
    = (Fulfilled res', w')
    ∧ console w'
      = console w
        ++ if debug options then
             if bool_decide (method req ≠ "GET")
             then ["MISS - not a GET request"]
             else
               match responseBucket (heap w) !! cacheKey with
               | Some cr =>
                   if isSealed cr then
                     if bucket_has (chunkBucket (heap w)) (chunks cr)
                     then ["HIT: " +:+ cacheKey]
                     else ["chunk missing";
                           "MISS - key not found: " +:+ cacheKey]
                   else ["MISS - key not found: " +:+ cacheKey]
               | None => ["MISS - key not found: " +:+ cacheKey]
               end
           else [].
Proof.
  intros cacheKey.
  destruct (middleware_behaviour requestId req res w)
    as (w' & Hrun & _ & Hl & _).
  fold cacheKey in Hrun, Hl.
  eexists _, w'. split; [exact Hrun|]. rewrite Hl.
  unfold request_log, check_log, hit_of.
  destruct (debug options); [|done].
  destruct (bool_decide (method req ≠ "GET")); [done|].
  destruct (responseBucket (heap w) !! cacheKey) as [cr|]; [|done].
  destruct (isSealed cr); [|done].
  by destruct (bucket_has (chunkBucket (heap w)) (chunks cr)).
Qed.

End RequestBehaviour.

(* ===================================================================== *)
(** ** The cacheability predicate, directive by directive *)
(* ===================================================================== *)

Module ShouldCacheDirectives.

Lemma prop_insert_eq (cc : gmap string value) k v :
  prop (<[k := v]> cc) k = v.
Proof. unfold prop. by rewrite lookup_insert_eq. Qed.

Lemma prop_insert_ne (cc : gmap string value) k k' v :
  k ≠ k' → prop (<[k := v]> cc) k' = prop cc k'.
Proof. intros. unfold prop. by rewrite lookup_insert_ne. Qed.

Lemma prop_delete_eq (cc : gmap string value) k :
  prop (delete k cc) k = JUndefined.
Proof. unfold prop. by rewrite lookup_delete_eq. Qed.

Lemma prop_delete_ne (cc : gmap string value) k k' :
  k ≠ k' → prop (delete k cc) k' = prop cc k'.
Proof. intros. unfold prop. by rewrite lookup_delete_ne. Qed.

Lemma directives_cases (P : string → Prop) :
  P "no-cache" → P "no-store" → P "private" → P "max-age" →
  ∀ k, k ∈ directives → P k.
Proof.
  intros H1 H2 H3 H4 k Hk. unfold directives in Hk.
  repeat (apply elem_of_cons in Hk as [->|Hk]; [done|]).
  by apply elem_of_nil in Hk.
Qed.

(** X6.  [shouldCache] looks at four directives and at nothing else: two
    directive maps that agree on [no-cache], [no-store], [private] and
    [max-age] get the same answer, so adding, changing or removing any
    other directive ([public], [s-maxage], [must-revalidate], ...) never
    changes it. *)
Theorem shouldCache_reads_four_directives (cc1 cc2 : gmap string value) :
  (∀ k, k ∈ directives → cc1 !! k = cc2 !! k) →
  shouldCache (Some cc1) = shouldCache (Some cc2)
  ∧ ∀ k v, k ∉ directives →
           shouldCache (Some (<[k := v]> cc1)) = shouldCache (Some cc1)
           ∧ shouldCache (Some (delete k cc1)) = shouldCache (Some cc1).
Proof.
  assert (Hagree : ∀ m1 m2 : gmap string value,
            (∀ k, k ∈ directives → m1 !! k = m2 !! k) →
            shouldCache (Some m1) = shouldCache (Some m2)).
  { intros m1 m2 H. unfold shouldCache, prop.
    rewrite (H "no-cache"), (H "no-store"), (H "private"), (H "max-age");
      [done|unfold directives; repeat first
         [apply list_elem_of_here | apply list_elem_of_further]..]. }
  intros H. split; [by apply Hagree|].
  intros k v Hk. split; apply Hagree; intros k' Hk'.
  - apply lookup_insert_ne. by intros ->.
  - apply lookup_delete_ne. by intros ->.
Qed.

Lemma shouldCache_reads_four_directives_witness :
  shouldCache (Some {[ "max-age" := JNumber hour;
                       "s-maxage" := JNumber zero;
                       "public" := JBool true ]})
  = shouldCache (Some {[ "max-age" := JNumber hour ]}).
Proof.
  apply shouldCache_reads_four_directives.
  apply directives_cases; reflexivity.
Defined.

(** X7.  Each of the four directives acts on its own.  Set to a blocking
    value (truthy for [no-cache], [no-store], [private]; the number 0 for
    [max-age]) it makes the response non-cacheable whatever else the map
    holds; set to any other value ([false], [null], [""], a string under
    [max-age], ...) it counts exactly as if it were not there. *)
Theorem directive_blocks_or_is_absent (cc : gmap string value) k v :
  k ∈ directives →
  shouldCache (Some (<[k := v]> cc))
  = if blocks k v then false else shouldCache (Some (delete k cc)).
Proof.
  intros Hk. revert v. pattern k. revert k Hk.
  apply directives_cases; intros v;
    unfold shouldCache, blocks; simpl;
    rewrite prop_insert_eq, prop_delete_eq,
      !prop_insert_ne, !prop_delete_ne by done; simpl.
  - by destruct (truthy v).
  - destruct (truthy v); [|done]. by rewrite orb_true_r.
  - destruct (truthy v); [|by rewrite orb_false_r].
    by rewrite !orb_true_r.
  - destruct (strict_eq_zero v); [|by rewrite orb_false_r].
    by rewrite !orb_true_r.
Qed.

Lemma directive_blocks_or_is_absent_witness :
  shouldCache (Some (<[ "no-store" := JBool false ]>
                       {[ "max-age" := JNumber hour ]}))
  = shouldCache (Some (delete "no-store" {[ "max-age" := JNumber hour ]}))
  ∧ shouldCache (Some (<[ "private" := JString "false" ]>
                         {[ "max-age" := JNumber hour ]}))
    = false.
Proof.
  split.
  - apply (directive_blocks_or_is_absent
             {[ "max-age" := JNumber hour ]} "no-store" (JBool false)).
    unfold directives.
    repeat first [apply list_elem_of_here | apply list_elem_of_further].
  - apply (directive_blocks_or_is_absent
             {[ "max-age" := JNumber hour ]} "private" (JString "false")).
    unfold directives.
    repeat first [apply list_elem_of_here | apply list_elem_of_further].
Defined.

End ShouldCacheDirectives.

(* ===================================================================== *)
(** ** Capture hooks: stacking, the end hook, and the round trip *)
(* ===================================================================== *)

Section CaptureHooks.

Context {Client Ret : Type}.
Variable options : @Options Client Ret.
Variable defaultGetCacheKey : Request → string.
Variable chunkId : string → nat → string.
Variables nativeWrite nativeEnd
  : list value → Client → Settled Ret * Client.

Implicit Types (req : Request) (res : @Response Client Ret)
  (w : @World Client).

Lemma onWrite_quiet requestId cacheKey :
  quiet (Client := Client) (onWrite requestId cacheKey).
Proof.
  intros v w. rewrite onWrite_result. eexists. split; [reflexivity|].
  by destruct (is_defined v).
Qed.

Lemma patch_all_snoc res observers fo :
  patch_all res (observers ++ [fo])
  = patched (patch_all res observers) (fst fo) (snd fo).
Proof. unfold patch_all. by rewrite foldl_app. Qed.

(** X8.  [handleCacheMiss] may patch a response object that is already
    patched (a server-wide and a per-endpoint cache on the same route).
    However many times that happens, with observers that return normally
    and leave the client alone (the middleware's own [onWrite] is one),
    [write] and [end] still give the client and the caller exactly what
    the native methods give, and the finish listeners run in the order
    they were registered.  An observer that throws, on the other hand,
    stops the call before the original method runs. *)
Theorem stacked_capture_forwards
    (observers : list (@M Client unit * (value → @M Client unit))) :
  Forall (λ fo, quiet (snd fo)) observers →
  let res' := patch_all (nativeResponse nativeWrite nativeEnd) observers in
  (∀ args w,
     fst (write res' args w) = fst (nativeWrite args (client w))
     ∧ client (snd (write res' args w)) = snd (nativeWrite args (client w))
     ∧ fst (end_ res' args w) = fst (nativeEnd args (client w))
     ∧ client (snd (end_ res' args w)) = snd (nativeEnd args (client w)))
  ∧ finishListeners res' = map fst observers
  ∧ (∀ res onFinish observer args w e w',
       observer (arg0 args) w = (Rejected e, w') →
       write (patched res onFinish observer) args w = (Rejected e, w')
       ∧ end_ (patched res onFinish observer) args w = (Rejected e, w')).
Proof.
  intros Hq. simpl. split; [|split].
  - induction observers as [|fo observers IH] using rev_ind.
    + intros args w. simpl. unfold native.
      by destruct (nativeWrite args (client w)), (nativeEnd args (client w)).
    + apply Forall_app in Hq as [Hq Hfo]. apply Forall_cons in Hfo as [Hfo _].
      specialize (IH Hq). intros args w.
      rewrite patch_all_snoc. unfold patched. simpl. unfold mbind, M_bind.
      destruct (Hfo (arg0 args) w) as (w' & -> & <-).
      apply IH.
  - clear Hq. induction observers as [|fo observers IH] using rev_ind.
    + done.
    + rewrite patch_all_snoc, map_app. simpl. by rewrite IH.
  - intros res onFin observer args w e w' Hthrow.
    unfold patched. simpl. unfold mbind, M_bind. by rewrite Hthrow.
Qed.

(** X9.  The patched [end] captures its first argument just as the patched
    [write] does: both leave heap, queue, trace and console in the same
    state, [res.end(chunk)] schedules the task for [chunk] behind whatever
    is queued, and [res.end()] schedules nothing. *)
Theorem end_captures_like_write requestId cacheKey (args : list value) w :
  let res' := capturing nativeWrite nativeEnd requestId cacheKey in
  let after_end := exec (end_ res' args) w in
  let after_write := exec (write res' args) w in
  heap after_end = heap after_write
  ∧ chunkQueue after_end = chunkQueue after_write
  ∧ trace after_end = trace after_write
  ∧ console after_end = console after_write
  ∧ queued (chunkQueue after_end)
    = queued (chunkQueue w)
      ++ (if is_defined (arg0 args)
          then [CacheChunk requestId (arg0 args) cacheKey] else [])
  ∧ chunkQueue (exec (end_ res' []) w) = chunkQueue w.
Proof.
  simpl. unfold exec, capturing, patched, nativeResponse, native. simpl.
  unfold mbind, M_bind. rewrite !onWrite_result. simpl.
  destruct (is_defined (arg0 args)); simpl;
    destruct (nativeWrite args (client w)), (nativeEnd args (client w)),
      (nativeEnd [] (client w)); simpl;
    rewrite ?queued_push_run, ?app_nil_r; done.
Qed.

Lemma resolve_has (bucket : gmap string value) ids vs :
  resolve bucket ids = Some vs → bucket_has bucket ids = true.
Proof.
  intros H%mapM_Some_1. apply bucket_has_spec. intros id Hid.
  apply list_elem_of_lookup in Hid as [i Hi].
  destruct (Forall2_lookup_l _ _ _ _ _ H Hi) as (v & _ & Hv). by exists v.
Qed.

(** X10.  Round trip.  A GET request misses, the handler writes its
    chunks and the response finishes; once the queue has drained, the next
    GET request with the same cache key is a hit: the handler is not
    invoked, and the record that is replayed lists chunk identities that
    resolve, in order, to exactly the chunks the first handler wrote. *)
Theorem miss_then_hit_round_trip
    requestId req w0 (schedule calls : list Step) requestId2 req2 res2 :
  let res := nativeResponse nativeWrite nativeEnd in
  let cacheKey := cacheKeyOf options defaultGetCacheKey req res in
  NoDup (chunkId requestId <$> seq 0 (length (written calls))) →
  method req = "GET" →
  ¬ replayable (heap w0) cacheKey →
  handler_calls schedule = calls ++ [Finish] →
  Forall (λ s, is_finish s = false) calls →
  method req2 = "GET" →
  cacheKeyOf options defaultGetCacheKey req2 res2 = cacheKey →
  ∃ res' w1,
    middleware options defaultGetCacheKey requestId req res w0
    = (Fulfilled res', w1)
    ∧ (let w := run chunkId res' w1 schedule in
       idle (chunkQueue w) →
       ∃ cr w2,
         middleware options defaultGetCacheKey requestId2 req2 res2 w
         = (Fulfilled res2, w2)
         ∧ trace w2 = trace w ++ [ResponseBucketGet cacheKey;
                                  ChunkBucketHas (chunks cr);
                                  OnCacheHit; ReturnCachedResponse cr]
         ∧ resolve (chunkBucket (heap w)) (chunks cr)
           = Some (written calls)).
Proof.
  intros res cacheKey Hnd Hget Hmiss Hcalls Hfin Hget2 Hkey.
  destruct (middleware_get options defaultGetCacheKey requestId req res w0
              Hget)
    as (res' & w1 & events & Hrun & _ & _ & _ & Hagg & Hq & _ & _ & _ & Hm).
  destruct (Hm Hmiss) as [_ ->]. fold cacheKey.
  exists (capturing nativeWrite nativeEnd requestId cacheKey), w1.
  split; [exact Hrun|].
  pose proof (session_inv_run chunkId nativeWrite nativeEnd requestId
                cacheKey _ _ _ _ schedule
                (session_inv_start chunkId w1 Hq)) as Hinv.
  simpl in Hinv.
  rewrite (pushed_complete requestId cacheKey schedule calls Hcalls Hfin)
    in Hinv.
  intros w Hidle.
  destruct (session_inv_drained chunkId _ _ _ _ Hinv Hidle) as [_ Hheap].
  fold w in Hheap.
  destruct (sealed_record chunkId requestId cacheKey (written calls)
              (heap w1) Hagg) as [Hrec _].
  pose proof (sealed_resolve chunkId requestId cacheKey (written calls)
                (heap w1) Hnd Hagg) as Hres.
  simpl in Hrec, Hres. rewrite <- Hheap in Hrec, Hres.
  assert (Hrep : replayable (heap w)
                   (cacheKeyOf options defaultGetCacheKey req2 res2)).
  { rewrite Hkey. apply replayable_dec. eexists. split; [exact Hrec|].
    split; [done|]. simpl. by eapply resolve_has. }
  destruct (middleware_on_hit options defaultGetCacheKey requestId2 req2 res2
              w Hget2 Hrep)
    as (cr & w2 & Hcr & Hrun2 & Ht2 & _).
  rewrite Hkey in Hcr, Ht2. rewrite Hrec in Hcr. injection Hcr as <-.
  eexists _, w2. split; [exact Hrun2|]. split; [exact Ht2|]. exact Hres.
Qed.

End CaptureHooks.

(* ===================================================================== *)
(** ** A capture session keeps to its own entries *)
(* ===================================================================== *)

Section CaptureIsolation.

Context {Client Ret : Type}.
Variable chunkId : string → nat → string.
Variables nativeWrite nativeEnd
  : list value → Client → Settled Ret * Client.
Variables requestId cacheKey : string.

Implicit Types (w : @World Client) (h : Heap).

Lemma pushed_of_session (schedule : list Step) :
  Forall (task_of_session requestId cacheKey)
    (pushed requestId cacheKey schedule).
Proof.
  unfold pushed. induction schedule as [|s schedule IH]; [constructor|].
  simpl. apply Forall_app. split; [|done].
  destruct s as [args|args| |]; simpl;
    try destruct (is_defined (arg0 args)); by repeat constructor.
Qed.

Lemma all_ops_of_session t :
  task_of_session requestId cacheKey t →
  Forall (op_of_session requestId cacheKey) (all_ops t).
Proof.
  destruct t; intros [-> ->]; unfold all_ops; simpl; by repeat constructor.
Qed.

Lemma ops_of_session_frame (ops : list StoreOp) : ∀ h,
  Forall (op_of_session requestId cacheKey) ops →
  (∀ key, key ≠ cacheKey →
     responseBucket (apply_ops chunkId ops h) !! key
     = responseBucket h !! key)
  ∧ (∀ id, (∀ n, id ≠ chunkId requestId n) →
       chunkBucket (apply_ops chunkId ops h) !! id = chunkBucket h !! id)
  ∧ cacheKeyBucket (apply_ops chunkId ops h) = cacheKeyBucket h.
Proof.
  induction ops as [|op ops IH]; intros h Hops; [done|].
  apply Forall_cons in Hops as [Hop Hops].
  destruct (IH (do_op chunkId op h) Hops) as (Hr & Hc & Hk).
  simpl. split; [|split].
  - intros key Hkey. rewrite Hr by done.
    destruct op as [r c|k sealed]; simpl in *; [done|]. subst k.
    by rewrite lookup_insert_ne.
  - intros id Hid. rewrite Hc by done.
    destruct op as [r c|k sealed]; simpl in *; [|done]. subst r.
    rewrite lookup_insert_ne; [done|]. intros Heq. by eapply Hid.
  - rewrite Hk. by destruct op.
Qed.

(** X11.  A capture session started on a fresh queue keeps to its own
    entries, at every moment and for every interleaving of handler calls
    and store acknowledgements: in the response bucket only the record
    under the session's cache key can change, in the chunk bucket only
    entries under identities of this request id, and the tag index not at
    all. *)
Theorem capture_keeps_to_its_entries w1 (schedule : list Step) :
  chunkQueue w1 = newQueue →
  let w := run chunkId (capturing nativeWrite nativeEnd requestId cacheKey)
             w1 schedule in
  (∀ key, key ≠ cacheKey →
     responseBucket (heap w) !! key = responseBucket (heap w1) !! key)
  ∧ (∀ id, (∀ n, id ≠ chunkId requestId n) →
       chunkBucket (heap w) !! id = chunkBucket (heap w1) !! id)
  ∧ cacheKeyBucket (heap w) = cacheKeyBucket (heap w1).
Proof.
  intros Hq w.
  pose proof (session_inv_run chunkId nativeWrite nativeEnd requestId
                cacheKey _ _ _ _ schedule
                (session_inv_start chunkId w1 Hq)) as Hinv.
  simpl in Hinv. fold w in Hinv.
  destruct Hinv as (done & acked & _ & Hqueued & -> & Hact).
  apply ops_of_session_frame.
  pose proof (pushed_of_session schedule) as Hall.
  rewrite <- Hqueued in Hall. apply Forall_app in Hall as [Hdone Hwait].
  apply Forall_app. split.
  - clear -Hdone. induction Hdone as [|t ts Ht _ IH]; [constructor|].
    simpl. apply Forall_app. split; [by apply all_ops_of_session|done].
  - unfold queued in Hwait.
    destruct (active (chunkQueue w)) as [[[t op] ops]|].
    + apply Forall_cons in Hwait as [Ht _].
      apply all_ops_of_session in Ht. rewrite Hact in Ht.
      by apply Forall_app in Ht as [Ht _].
    + destruct Hact as [-> _]. constructor.
Qed.

End CaptureIsolation.

(* ===================================================================== *)
(** ** The further theorems at the concrete instances *)
(* ===================================================================== *)

Module Scenarios2.

Import Sample Sample2.

Lemma warm_replayable : replayable warmHeap "/hello".
Proof.
  apply replayable_dec.
  exists {| isSealed := true; chunks := ["a-0"; "a-1"] |}.
  repeat split; reflexivity.
Defined.

Lemma hit_replays_stored_record_witness :
  ∃ cr w',
    middleware options defaultGetCacheKey "r2" get res
      (Build_World warmHeap newQueue [] [] [])
    = (Fulfilled res, w')
    ∧ trace w' = [ResponseBucketGet "/hello"; ChunkBucketHas (chunks cr);
                  OnCacheHit; ReturnCachedResponse cr].
Proof.
  destruct (hit_replays_stored_record options defaultGetCacheKey "r2" get res
              (Build_World warmHeap newQueue [] [] []))
    as (cr & w' & _ & Hrun & Ht & _).
  - reflexivity.
  - exact warm_replayable.
  - by exists cr, w'.
Defined.

Lemma miss_event_order_witness :
  ∃ w',
    middleware taggedOptions defaultGetCacheKey "r" get res
      (Build_World staleHeap newQueue [] [] [])
    = (Fulfilled (patched res (onFinish "r" "/hello") (onWrite "r" "/hello")),
       w')
    ∧ trace w' = [ResponseBucketGet "/hello"; ChunkBucketHas ["a-0"; "a-1"];
                  OnCacheMiss; CacheKeyBucketSet "greeting" "/hello"; Next].
Proof.
  destruct (miss_event_order taggedOptions defaultGetCacheKey "r" get res
              (Build_World staleHeap newQueue [] [] []))
    as (w' & Hrun & Ht & _).
  - reflexivity.
  - exact Scenarios.stale_not_replayable.
  - by exists w'.
Defined.

Lemma stacked_capture_forwards_witness :
  client (snd (write (patch_all res twoSessions) [JString "He"] emptyWorld))
  = [[JString "He"]]
  ∧ finishListeners (patch_all res twoSessions)
    = [onFinish "r" "/hello"; onFinish "s" "/hello"].
Proof.
  destruct (stacked_capture_forwards nativeWrite nativeEnd twoSessions)
    as (Hforward & Hlisteners & _).
  - repeat constructor; apply onWrite_quiet.
  - split; [|exact Hlisteners].
    destruct (Hforward [JString "He"] emptyWorld) as (_ & H & _). exact H.
Defined.

Lemma miss_then_hit_round_trip_witness :
  ∃ res' w1,
    middleware options defaultGetCacheKey "r" get res emptyWorld
    = (Fulfilled res', w1)
    ∧ (idle (chunkQueue (run chunkId res' w1 hello)) →
       ∃ cr w2,
         middleware options defaultGetCacheKey "r2" again res
           (run chunkId res' w1 hello)
         = (Fulfilled res, w2)
         ∧ resolve (chunkBucket (heap (run chunkId res' w1 hello)))
             (chunks cr)
           = Some [JString "He"; JString "llo"]).
Proof.
  destruct (miss_then_hit_round_trip options defaultGetCacheKey chunkId
              nativeWrite nativeEnd "r" get emptyWorld hello
              [HandlerWrite [JString "He"]; HandlerWrite [JString "llo"];
               HandlerEnd []] "r2" again res)
    as (res' & w1 & Hrun & Hhit).
  - vm_compute. apply NoDup_cons. split; [|apply NoDup_singleton].
    intros H%list_elem_of_singleton. discriminate.
  - reflexivity.
  - exact Scenarios.empty_not_replayable.
  - reflexivity.
  - repeat constructor.
  - reflexivity.
  - reflexivity.
  - exists res', w1. split; [exact Hrun|].
    intros Hi. destruct (Hhit Hi) as (cr & w2 & Hrun2 & _ & Hres).
    by exists cr, w2.
Defined.

Lemma capture_keeps_to_its_entries_witness :
  cacheKeyBucket (heap (run chunkId (capturing nativeWrite nativeEnd
                                       "r" "/hello") afterMiss hello))
  = cacheKeyBucket (heap afterMiss).
Proof.
  apply (capture_keeps_to_its_entries chunkId nativeWrite nativeEnd
           "r" "/hello" afterMiss hello).
  reflexivity.
Defined.

(** The tag index after a tagged miss, and the second of two stacked
    sessions seeing the same write. *)
Example tagged_miss_index :
  cacheKeyBucket
    (heap (snd (middleware taggedOptions defaultGetCacheKey "r" get res
                  emptyWorld)))
  !! "greeting" = Some "/hello".
Proof. by vm_compute. Qed.

Example end_without_data_schedules_nothing :
  chunkQueue (exec (end_ captured []) afterMiss) = newQueue.
Proof. reflexivity. Qed.

(** Capture attached is more than a name: the response object left as it
    was does not satisfy it, since its [write] queues nothing. *)
Lemma unpatched_does_not_intercept : ¬ intercepts "r" "/hello" res res.
Proof.
  intros [Hhooks _].
  destruct (Hhooks [JString "He"] emptyWorld)
    as (wc & (_ & _ & _ & _ & Hq) & Hwrite & _).
  unfold res, nativeResponse, native, nativeWrite in Hwrite.
  apply (f_equal (λ p, chunkQueue (snd p))) in Hwrite. simpl in Hwrite.
  rewrite <- Hwrite in Hq. discriminate Hq.
Qed.

(** A session in which the store rejects the first chunk and the
    sealing: the client still receives every call of the handler, the two
    failures are logged, and the record is left unsealed. *)
Example store_failures_leave_client :
  let w := live_run options chunkId captured afterMiss troubled in
  client w = [[JString "He"]; [JString "llo"]; []]
  ∧ console w = ["MISS - key not found: /hello"; "ECONNRESET"; "ETIMEDOUT"]
  ∧ isSealed <$> responseBucket (heap w) !! "/hello" = Some false
  ∧ idle (chunkQueue w).
Proof. by vm_compute. Qed.

End Scenarios2.

(* ===================================================================== *)
(** ** What of a call is captured *)
(* ===================================================================== *)

Section CapturedArguments.

Context {Client Ret : Type}.
Variables nativeWrite nativeEnd
  : list value → Client → Settled Ret * Client.
Variables requestId cacheKey : string.

(** X12.  Of a call [res.write(chunk, encoding, callback)] or
    [res.end(chunk, encoding, callback)] only the first argument is
    captured: whatever follows it (an encoding, a callback) leaves heap,
    queue and trace exactly as a call with the chunk alone would, while
    the client is handed the complete argument list. *)
Theorem only_first_argument_is_captured
    (chunk : value) (rest rest' : list value) (w : @World Client) :
  let res' := capturing nativeWrite nativeEnd requestId cacheKey in
  let same (a b : @World Client) :=
    heap a = heap b ∧ chunkQueue a = chunkQueue b ∧ trace a = trace b in
  same (exec (write res' (chunk :: rest)) w)
       (exec (write res' (chunk :: rest')) w)
  ∧ same (exec (end_ res' (chunk :: rest)) w)
         (exec (end_ res' (chunk :: rest')) w)
  ∧ client (exec (write res' (chunk :: rest)) w)
    = snd (nativeWrite (chunk :: rest) (client w))
  ∧ client (exec (end_ res' (chunk :: rest)) w)
    = snd (nativeEnd (chunk :: rest) (client w)).
Proof.
  simpl. unfold exec, capturing, patched, nativeResponse, native. simpl.
  unfold mbind, M_bind. rewrite !onWrite_result.
  change (arg0 (chunk :: rest)) with chunk.
  change (arg0 (chunk :: rest')) with chunk.
  destruct (is_defined chunk); simpl;
    destruct (nativeWrite (chunk :: rest) (client w)),
      (nativeWrite (chunk :: rest') (client w)),
      (nativeEnd (chunk :: rest) (client w)),
      (nativeEnd (chunk :: rest') (client w)); done.
Qed.

End CapturedArguments.
